(** * Course Planner: the course store, the prerequisite graph and the merge sort

    A shallow embedding of [main.cpp]: [CourseHashTable], [PrerequisiteGraph],
    [MergeSort] and [loadCoursesFile], followed by the properties of the
    catalog engine.

    Conventions of the embedding.
    - [std::string] is [string]; a [char] is an [ascii] (one byte).
    - [std::unordered_map<string, V>] is [gmap string V]; [operator[]] inserts a
      value-initialised entry when the key is absent, which is written out.
    - [std::vector<Course>] is [list Course]; [int] indices are [Z].  An index
      outside the vector is undefined behaviour in the source: the embedding
      returns [None] there.  Overflow of [int], undefined too, is not modelled:
      the indices that [mergeSort] and [merge] compute for a range inside the
      vector stay between its bounds, one past the upper one at most, so it
      takes a vector of [2^31 - 1] records or more.
    - A [Course*] returned by [find] is [option Course]. *)

From Stdlib Require Import ZArith Lia String Ascii Sorted.
From Equations Require Import Equations.
From stdpp Require Import gmap strings list fin_maps sorting pretty.

Local Open Scope Z_scope.

#[local] Set Warnings "-clear-no-such-hyp".

(** ** Strings *)

(** [::tolower] in the "C" locale (the program never calls [setlocale]): the
    26 upper-case letters are moved to lower case, every other byte is kept. *)
Definition tolower (c : ascii) : ascii :=
  let n := N_of_ascii c in
  if ((65 <=? n) && (n <=? 90))%N then ascii_of_N (n + 32) else c.

(** [::toupper] in the "C" locale, the counterpart of [tolower]; the program
    does not call it, it is what "upper case" of an identifier means. *)
Definition toupper (c : ascii) : ascii :=
  let n := N_of_ascii c in
  if ((97 <=? n) && (n <=? 122))%N then ascii_of_N (n - 32) else c.

(** [transform(str.begin(), str.end(), str.begin(), f)] *)
Fixpoint transform (f : ascii → ascii) (str : string) : string :=
  match str with
  | EmptyString => EmptyString
  | String c rest => String (f c) (transform f rest)
  end.

(** [toLower], the private helper that [CourseHashTable] and
    [PrerequisiteGraph] both declare with the same body. *)
Definition toLower (str : string) : string := transform tolower str.

Definition toUpper (str : string) : string := transform toupper str.

(** ** struct Course *)

Record Course := mkCourse {
  courseNumber : string;
  name : string;
  prerequisites : list string
}.

(** A value-initialised [Course], as [vector<Course> v(n)] creates them. *)
Definition Course_default : Course := mkCourse EmptyString EmptyString [].

(** ** unordered_map::operator[] *)

(** [m[k]]: the mapped value, after inserting [dflt] when [k] is absent. *)
Definition subscript {V} (dflt : V) (k : string) (m : gmap string V)
  : V * gmap string V :=
  match m !! k with
  | Some v => (v, m)
  | None => (dflt, <[k := dflt]> m)
  end.

(** [m[k].push_back(x)] on a map of lists. *)
Definition push_back_at (k x : string) (m : gmap string (list string))
  : gmap string (list string) :=
  let '(l, m') := subscript [] k m in <[k := l ++ [x]]> m'.

(** ** class CourseHashTable *)

Module CourseHashTable.

Record t := mk { courseMap : gmap string Course }.

(** [CourseHashTable()] *)
Definition new : t := mk ∅.

Definition empty (h : t) : bool := bool_decide (courseMap h = ∅).

Definition size (h : t) : nat := base.size (courseMap h).

(** The records in the table; the source iterates the [unordered_map] in an
    unspecified order, here the order of [map_to_list]. *)
Definition getAllCourses (h : t) : list Course := (map_to_list (courseMap h)).*2.

Definition find (h : t) (courseNumber : string) : option Course :=
  let lowerKey := toLower courseNumber in
  courseMap h !! lowerKey.

Definition insert (h : t) (course : Course) : t :=
  mk (<[toLower (courseNumber course) := course]> (courseMap h)).

End CourseHashTable.

(** ** class PrerequisiteGraph *)

Module PrerequisiteGraph.

Record t := mk {
  adjacencyList : gmap string (list string);
  reverseList : gmap string (list string)
}.

(** [PrerequisiteGraph()] *)
Definition new : t := mk ∅ ∅.

(** One turn of the loop over [course.prerequisites] in [addCourse]. *)
Definition addCourse_step (courseKey : string) (g : t) (prereq : string) : t :=
  let prereqKey := toLower prereq in
  mk (push_back_at courseKey prereqKey (adjacencyList g))
     (push_back_at prereq courseKey (reverseList g)).

Definition addCourse (g : t) (course : Course) : t :=
  let courseKey := toLower (courseNumber course) in
  let g0 := mk (<[courseKey := []]> (adjacencyList g)) (reverseList g) in
  foldl (addCourse_step courseKey) g0 (prerequisites course).

(** [getPrerequisites] returns the list and, through [operator[]], may add
    an entry to the adjacency map: the graph after the call is returned too. *)
Definition getPrerequisites (g : t) (courseNumber : string)
  : list string * t :=
  let courseKey := toLower courseNumber in
  let '(l, adj) := subscript [] courseKey (adjacencyList g) in
  (l, mk adj (reverseList g)).

(** *** findAvailableCourses *)

(** The variables of the [while] loop. *)
Record bfs := mkBfs {
  q : list string;
  visited : gmap string bool;
  available : list string;
  adj : gmap string (list string)
}.

(** [if (!visited[next]) q.push(next)], for one [next]. *)
Definition enqueue_step (st : list string * gmap string bool) (next : string)
  : list string * gmap string bool :=
  let '(b, v) := subscript false next (snd st) in
  if negb b then (fst st ++ [next], v) else (fst st, v).

(** The body of [while (!q.empty())], for the front [current] of the queue
    and the rest [rest] of it. *)
Definition bfs_body (reverseList : gmap string (list string))
    (courseKey current : string) (rest : list string) (st : bfs) : bfs :=
  let '(seen, v) := subscript false current (visited st) in
  if seen then mkBfs rest v (available st) (adj st)
  else
    let v := <[current := true]> v in
    let '(prereqs, adj') := subscript [] current (adj st) in
    let allPrereqsMet :=
      forallb (λ prereq, bool_decide (toLower prereq = courseKey)) prereqs in
    if allPrereqsMet then
      let available' := available st ++ [current] in
      match reverseList !! current with
      | Some nexts =>
          let '(q', v') := foldl enqueue_step (rest, v) nexts in
          mkBfs q' v' available' adj'
      | None => mkBfs rest v available' adj'
      end
    else mkBfs rest v (available st) adj'.

(** The [while] loop, bounded by [fuel] turns; [None] when they run out. *)
Fixpoint bfs_loop (fuel : nat) (reverseList : gmap string (list string))
    (courseKey : string) (st : bfs) : option bfs :=
  match q st with
  | [] => Some st
  | current :: rest =>
      match fuel with
      | O => None
      | S fuel' =>
          bfs_loop fuel' reverseList courseKey
            (bfs_body reverseList courseKey current rest st)
      end
  end.

(** The number of entries of all the lists of [reverseList]. *)
Definition edges (reverseList : gmap string (list string)) : nat :=
  map_fold (λ _ l acc, (length l + acc)%nat) 0%nat reverseList.

(** [findAvailableCourses]; the [hashTable] argument is not used by the
    source.  The loop runs with as many turns as it can need (see
    [findAvailableCourses_returns]). *)
Definition findAvailableCourses (g : t) (completedCourse : string)
  : option (list string * t) :=
  let courseKey := toLower completedCourse in
  match reverseList g !! courseKey with
  | None => Some ([], g)
  | Some dependents =>
      let q0 := foldl (λ q dependent, q ++ [dependent]) [] dependents in
      st ← bfs_loop (length q0 + edges (reverseList g)) (reverseList g) courseKey
             (mkBfs q0 ∅ [] (adjacencyList g));
      Some (available st, mk (adj st) (reverseList g))
  end.

End PrerequisiteGraph.

(** ** class MergeSort *)

Module MergeSort.

(** [v[i]] read and [v[i] = x] on a vector, [None] outside it. *)
Definition vec_get {A} (v : list A) (i : Z) : option A :=
  if decide (0 ≤ i) then v !! Z.to_nat i else None.

Definition vec_set {A} (v : list A) (i : Z) (x : A) : option (list A) :=
  if decide (0 ≤ i < Z.of_nat (length v)) then Some (<[Z.to_nat i := x]> v) else None.

(** [vector<Course> a(n)]: [n] value-initialised records; a negative [n]
    makes the constructor throw. *)
Definition vec_new (n : Z) : option (list Course) :=
  if decide (0 ≤ n) then Some (replicate (Z.to_nat n) Course_default) else None.

(** [for (; i < n; i++) dst[i] = src[off + i];] *)
Equations? copy_loop (src : list Course) (off n : Z) (dst : list Course) (i : Z)
  : option (list Course) by wf (Z.to_nat (n - i)) lt :=
  copy_loop src off n dst i :=
    match decide (i < n) with
    | left _ =>
        x ← vec_get src (off + i);
        dst' ← vec_set dst i x;
        copy_loop src off n dst' (i + 1)
    | right _ => Some dst
    end.
Proof. lia. Qed.

(** [while (i < n1 && j < n2)]: the smaller-or-equal head goes to
    [courses[k]]; [<=] on [std::string] is [String.leb], the comparison of
    the bytes as unsigned numbers, a proper prefix being smaller. *)
Equations? merge_while (leftArray rightArray : list Course) (n1 n2 : Z)
    (courses : list Course) (i j k : Z)
  : option (list Course * Z * Z * Z)
  by wf (Z.to_nat (n1 - i) + Z.to_nat (n2 - j))%nat lt :=
  merge_while leftArray rightArray n1 n2 courses i j k :=
    match decide (i < n1 ∧ j < n2) with
    | left _ =>
        l ← vec_get leftArray i;
        r ← vec_get rightArray j;
        if String.leb (courseNumber l) (courseNumber r) then
          courses' ← vec_set courses k l;
          merge_while leftArray rightArray n1 n2 courses' (i + 1) j (k + 1)
        else
          courses' ← vec_set courses k r;
          merge_while leftArray rightArray n1 n2 courses' i (j + 1) (k + 1)
    | right _ => Some (courses, i, j, k)
    end.
Proof. all: lia. Qed.

(** [while (i < n) { courses[k] = a[i]; i++; k++; }], the shape of the two
    loops that copy what is left of [leftArray] and of [rightArray]. *)
Equations? copy_rest (a : list Course) (n : Z) (courses : list Course) (i k : Z)
  : option (list Course * Z * Z) by wf (Z.to_nat (n - i)) lt :=
  copy_rest a n courses i k :=
    match decide (i < n) with
    | left _ =>
        x ← vec_get a i;
        courses' ← vec_set courses k x;
        copy_rest a n courses' (i + 1) (k + 1)
    | right _ => Some (courses, i, k)
    end.
Proof. lia. Qed.

(** The three [while] loops of [merge], entered with [i], [j] and [k]. *)
Definition merge_loops (leftArray rightArray : list Course) (n1 n2 : Z)
    (courses : list Course) (i j k : Z) : option (list Course) :=
  '(courses, i, j, k) ← merge_while leftArray rightArray n1 n2 courses i j k;
  '(courses, i, k) ← copy_rest leftArray n1 courses i k;
  '(courses, j, k) ← copy_rest rightArray n2 courses j k;
  Some courses.

Definition merge (courses : list Course) (left_ mid right_ : Z)
  : option (list Course) :=
  let n1 := mid - left_ + 1 in
  let n2 := right_ - mid in
  leftArray ← vec_new n1;
  rightArray ← vec_new n2;
  leftArray ← copy_loop courses left_ n1 leftArray 0;
  rightArray ← copy_loop courses (mid + 1) n2 rightArray 0;
  merge_loops leftArray rightArray n1 n2 courses 0 0 left_.

(** [/] on [int] truncates, which is [Z.quot]. *)
Equations? mergeSort (courses : list Course) (left_ right_ : Z)
  : option (list Course) by wf (Z.to_nat (right_ - left_)) lt :=
  mergeSort courses left_ right_ :=
    match decide (left_ < right_) with
    | left _ =>
        let mid := left_ + (right_ - left_) ÷ 2 in
        courses ← mergeSort courses left_ mid;
        courses ← mergeSort courses (mid + 1) right_;
        merge courses left_ mid right_
    | right _ => Some courses
    end.
Proof.
  all: subst mid; Z.to_euclidean_division_equations; lia.
Qed.

End MergeSort.

(** ** The loader *)

(** [format(s)] with its default delimiter [","]: the fields between the
    commas, the last one running to the end of the line. *)
Fixpoint format (s : string) : list string :=
  match s with
  | EmptyString => [EmptyString]
  | String c rest =>
      if Ascii.eqb c "," then EmptyString :: format rest
      else
        match format rest with
        | field :: fields => String c field :: fields
        | [] => [String c EmptyString]
        end
  end.

(** The three globals of the program. *)
Record Globals := mkGlobals {
  courseHashTable : CourseHashTable.t;
  prereqGraph : PrerequisiteGraph.t;
  dataLoaded : bool
}.

(** What [loadCoursesFile] prints. *)
Inductive Message :=
  | CouldNotAccess
  | AppearsEmpty
  | SuccessfullyLoaded.

(** Assignments to the globals. *)
Definition set_courseHashTable (h : CourseHashTable.t) (w : Globals) : Globals :=
  mkGlobals h (prereqGraph w) (dataLoaded w).

Definition set_prereqGraph (g : PrerequisiteGraph.t) (w : Globals) : Globals :=
  mkGlobals (courseHashTable w) g (dataLoaded w).

Definition set_dataLoaded (b : bool) (w : Globals) : Globals :=
  mkGlobals (courseHashTable w) (prereqGraph w) b.

(** The variables of the reading loop of [loadCoursesFile], and the globals. *)
Record reading := mkReading {
  courses : list Course;
  entered : bool;
  globals : Globals
}.

(** [while (getline(fin, line))] over the lines that are left in the file.
    A line with a single field reads [info[1]] outside [info]: [None]. *)
Fixpoint read_lines (lines : list string) (st : reading) : option reading :=
  match lines with
  | [] => Some st
  | line :: lines' =>
      if String.eqb line "-1" then Some st
      else
        let info := format line in
        number ← info !! 0%nat;
        title ← info !! 1%nat;
        let course := mkCourse number title (drop 2 info) in
        let w := globals st in
        let w := set_courseHashTable (CourseHashTable.insert (courseHashTable w) course) w in
        let w := set_prereqGraph (PrerequisiteGraph.addCourse (prereqGraph w) course) w in
        read_lines lines' (mkReading (courses st ++ [course]) true w)
  end.

(** [loadCoursesFile], on the globals [w].  [file] is the content of
    [courses.txt] as its lines, [None] when the file cannot be opened (every
    [getline] then fails, as on a file without lines).  The result is the
    returned vector, the globals after the call and the message printed. *)
Definition loadCoursesFile (file : option (list string)) (w : Globals)
  : option (list Course * Globals * Message) :=
  let lines := default [] file in
  let w := set_courseHashTable CourseHashTable.new w in
  let w := set_prereqGraph PrerequisiteGraph.new w in
  st ← read_lines lines (mkReading [] false w);
  if negb (entered st) then
    Some (courses st, set_dataLoaded false (globals st), CouldNotAccess)
  else if bool_decide (length (courses st) = 0%nat) then
    Some (courses st, set_dataLoaded false (globals st), AppearsEmpty)
  else
    sorted ← MergeSort.mergeSort (courses st) 0 (Z.of_nat (length (courses st)) - 1);
    Some (sorted, set_dataLoaded true (globals st), SuccessfullyLoaded).

(** A load that reads no input: the file cannot be opened, has no line, or
    starts with the end mark. *)
Definition reads_no_input (file : option (list string)) : Prop :=
  match default [] file with
  | [] => True
  | line :: _ => line = "-1"%string
  end.

(** The store after a sequence of records was ingested, the graph likewise. *)
Definition store_of (records : list Course) : CourseHashTable.t :=
  foldl CourseHashTable.insert CourseHashTable.new records.

Definition graph_of (records : list Course) : PrerequisiteGraph.t :=
  foldl PrerequisiteGraph.addCourse PrerequisiteGraph.new records.

(** ** Measures and invariants of the traversal *)

(** What reading [visited[k]] gives. *)
Definition seen (visited : gmap string bool) (k : string) : bool :=
  default false (visited !! k).

(** The entries of the reverse lists of the keys that are not yet visited. *)
Definition pending (reverseList : gmap string (list string))
    (visited : gmap string bool) : nat :=
  map_fold (λ k l acc, ((if seen visited k then 0 else length l) + acc)%nat)
    0%nat reverseList.

(** What bounds the turns the loop still takes. *)
Definition bfs_measure (reverseList : gmap string (list string))
    (st : PrerequisiteGraph.bfs) : nat :=
  (length (PrerequisiteGraph.q st)
   + pending reverseList (PrerequisiteGraph.visited st))%nat.

(** The forward list of [k] as the graph [adj0] at the call has it, empty when
    there is none. *)
Definition forward (adj0 : gmap string (list string)) (k : string) : list string :=
  default [] (adj0 !! k).

(** What the loop keeps true: the adjacency map is the one of the call plus an
    empty list for each visited key that had none, and every course in
    [available] has only [courseKey] in its forward list. *)
Definition bfs_inv (adj0 : gmap string (list string)) (courseKey : string)
    (st : PrerequisiteGraph.bfs) : Prop :=
  (∀ k, PrerequisiteGraph.adj st !! k
        = match adj0 !! k with
          | Some l => Some l
          | None => if seen (PrerequisiteGraph.visited st) k then Some [] else None
          end)
  ∧ (∀ d, d ∈ PrerequisiteGraph.available st →
        Forall (λ prereq, toLower prereq = courseKey) (forward adj0 d)).

(** Every course in a reverse list has a forward entry, as in every graph
    that [addCourse] alone builds. *)
Definition dependents_registered (g : PrerequisiteGraph.t) : Prop :=
  ∀ k l d, PrerequisiteGraph.reverseList g !! k = Some l → d ∈ l →
    is_Some (PrerequisiteGraph.adjacencyList g !! d).

(** The catalog of the reachability example, prerequisites in upper case as in
    [courses.txt]. *)
Definition example_records : list Course :=
  [ mkCourse "CSCI200" "Data Structures" ["CSCI101"];
    mkCourse "CSCI300" "Introduction to Algorithms" ["CSCI200"; "MATH201"];
    mkCourse "CSCI350" "Operating Systems" ["CSCI300"] ]%string.

Definition example_graph : PrerequisiteGraph.t := graph_of example_records.

(** Globals as a successful load of the example leaves them. *)
Definition example_globals : Globals :=
  mkGlobals (store_of example_records) example_graph true.

(** The same catalog with the prerequisites written in lower case. *)
Definition example_records_lower : list Course :=
  [ mkCourse "CSCI200" "Data Structures" ["csci101"];
    mkCourse "CSCI300" "Introduction to Algorithms" ["csci200"; "math201"];
    mkCourse "CSCI350" "Operating Systems" ["csci300"] ]%string.

(** A chain, in lower case: ["b"] needs ["a"] and ["c"] needs ["b"]. *)
Definition chain_records : list Course :=
  [ mkCourse "b" "B" ["a"]; mkCourse "c" "C" ["b"] ]%string.

(** A catalog in which the second record of [c] takes its prerequisite away. *)
Definition rewritten_records : list Course :=
  [ mkCourse "b" "B" ["a"]; mkCourse "c" "C" ["b"]; mkCourse "c" "C" [] ]%string.

(** A graph that no sequence of [addCourse] builds: ["b"] depends on ["a"]
    and has no forward entry. *)
Definition dangling_graph : PrerequisiteGraph.t :=
  PrerequisiteGraph.mk ∅ {[ "a"%string := ["b"%string] ]}.

(** ** The order of the sort *)

(** [a.courseNumber <= b.courseNumber] *)
Definition course_le (c1 c2 : Course) : Prop :=
  String.leb (courseNumber c1) (courseNumber c2) = true.

#[global] Instance course_le_dec (c1 c2 : Course) : Decision (course_le c1 c2) :=
  decide (String.leb (courseNumber c1) (courseNumber c2) = true).

(** The records of [l] whose identifier is [x], in the order of [l]. *)
Definition with_number (x : string) (l : list Course) : list Course :=
  filter (λ c, courseNumber c = x) l.

(** [s] is [xs] sorted by identifier, the records of equal identifier in the
    order they have in [xs]. *)
Definition stable_sort_of (xs s : list Course) : Prop :=
  s ≡ₚ xs
  ∧ StronglySorted course_le s
  ∧ ∀ x, with_number x s = with_number x xs.

(** The positions [left_ .. right_] of a vector. *)
Definition slice (courses : list Course) (left_ right_ : Z) : list Course :=
  take (Z.to_nat (right_ - left_ + 1)) (drop (Z.to_nat left_) courses).

(** The sort as [loadCoursesFile] calls it. *)
Definition sort_courses (courses : list Course) : option (list Course) :=
  MergeSort.mergeSort courses 0 (Z.of_nat (length courses) - 1).

(** The lines of [courses.txt] that the README shows. *)
Definition example_file : list string :=
  [ "CSCI300,Introduction to Algorithms,CSCI200,MATH201";
    "CSCI350,Operating Systems,CSCI300";
    "CSCI101,Introduction to Programming in C++,CSCI100";
    "CSCI100,Introduction to Computer Science";
    "CSCI301,Advanced Programming in C++,CSCI101";
    "CSCI400,Large Software Development,CSCI301,CSCI350";
    "CSCI200,Data Structures,CSCI101" ]%string.

(** ** What the traversal unlocks *)

(** A course qualifies for [courseKey] when every entry of its forward list
    folds to [courseKey]. *)
Definition qualifies (g : PrerequisiteGraph.t) (courseKey d : string) : Prop :=
  Forall (λ prereq, toLower prereq = courseKey)
    (forward (PrerequisiteGraph.adjacencyList g) d).

(** The courses that qualify and are reached from [courseKey] along reverse
    lists, each step leaving from [courseKey] or from a course already
    unlocked. *)
Inductive unlocks (g : PrerequisiteGraph.t) (courseKey : string) : string → Prop :=
  | unlocks_direct (dependents : list string) (d : string) :
      PrerequisiteGraph.reverseList g !! courseKey = Some dependents →
      d ∈ dependents → qualifies g courseKey d → unlocks g courseKey d
  | unlocks_next (c : string) (dependents : list string) (d : string) :
      unlocks g courseKey c →
      PrerequisiteGraph.reverseList g !! c = Some dependents →
      d ∈ dependents → qualifies g courseKey d → unlocks g courseKey d.

(** A course that the loop can still or could dequeue: a dependent of
    [courseKey] or of a course in [available]. *)
Definition candidate (g : PrerequisiteGraph.t) (courseKey : string)
    (available : list string) (d : string) : Prop :=
  ∃ c dependents,
    (c = courseKey ∨ c ∈ available)
    ∧ PrerequisiteGraph.reverseList g !! c = Some dependents
    ∧ d ∈ dependents.

(** What the loop keeps true of its result and its queue. *)
Definition bfs_reach (g : PrerequisiteGraph.t) (courseKey : string)
    (st : PrerequisiteGraph.bfs) : Prop :=
  NoDup (PrerequisiteGraph.available st)
  ∧ (∀ d, d ∈ PrerequisiteGraph.available st →
       seen (PrerequisiteGraph.visited st) d = true ∧ unlocks g courseKey d)
  ∧ (∀ d, seen (PrerequisiteGraph.visited st) d = true →
       qualifies g courseKey d → d ∈ PrerequisiteGraph.available st)
  ∧ (∀ d, d ∈ PrerequisiteGraph.q st →
       candidate g courseKey (PrerequisiteGraph.available st) d)
  ∧ (∀ d, candidate g courseKey (PrerequisiteGraph.available st) d →
       d ∈ PrerequisiteGraph.q st
       ∨ seen (PrerequisiteGraph.visited st) d = true).

(** The lower-case identifiers of the records that name [p], in the order of
    the records, once for each time a record names it. *)
Definition mentions (p : string) (records : list Course) : list string :=
  flat_map
    (λ c, replicate (length (filter (λ x, x = p) (prerequisites c)))
            (toLower (courseNumber c)))
    records.

(** ** Lines and records *)

(** The number of commas of a string. *)
Fixpoint commas (s : string) : nat :=
  match s with
  | EmptyString => 0
  | String c rest => ((if Ascii.eqb c "," then 1 else 0) + commas rest)%nat
  end.

(** The line that a record comes from: its fields with commas between. *)
Definition line_of (c : Course) : string :=
  String.concat "," (courseNumber c :: name c :: prerequisites c).

(** The lines that the reading loop reads: those before the end mark. *)
Fixpoint before_mark (lines : list string) : list string :=
  match lines with
  | [] => []
  | line :: lines' =>
      if String.eqb line "-1" then [] else line :: before_mark lines'
  end.

(** ** [format] as it is written *)

(** [s.substr(pos, count)]: the count is clipped to what is left of the
    string; a position behind the end throws [out_of_range]: [None]. *)
Definition substr (s : string) (pos count : nat) : option string :=
  if decide (pos ≤ String.length s)%nat
  then Some (String.substring pos count s) else None.

(** The loop of [format] and the [push_back] behind it, for any delimiter.
    [end_] is what [s.find(del, start)] gave, [None] for [npos].  Behind the
    loop [end - start] is [npos - start], which is not less than what is left
    of the string, so that [substr] takes all of it.  [fuel] bounds the turns
    of the loop. *)
Fixpoint format_loop (fuel : nat) (s del : string) (start : nat)
    (end_ : option nat) (result : list string) : option (list string) :=
  match end_ with
  | Some e =>
      match fuel with
      | O => None
      | S fuel' =>
          piece ← substr s start (e - start);
          let start' := (e + String.length del)%nat in
          format_loop fuel' s del start' (String.index start' del s)
            (result ++ [piece])
      end
  | None =>
      piece ← substr s start (String.length s - start);
      Some (result ++ [piece])
  end.

(** [format(s, del)], the loop given [fuel] turns. *)
Definition format_del (fuel : nat) (s del : string) : option (list string) :=
  format_loop fuel s del 0 (String.index 0 del s) [].

(** ** What the program prints *)

(** The text that [endl] writes, and the tabulator of the menu. *)
Definition endl : string := String "010" EmptyString.

Definition tab : string := String "009" EmptyString.

(** The message of [loadCoursesFile]. *)
Definition message_text (msg : Message) : string :=
  match msg with
  | CouldNotAccess =>
      "Could not access courses file. Please check if loaded properly." +:+ endl
  | AppearsEmpty => "Courses file appears to be empty." +:+ endl
  | SuccessfullyLoaded => "Data successfully loaded." +:+ endl +:+ endl
  end.

(** The loop of [printCourse] over the positions of the prerequisites: each
    one is written, and a comma behind it when [i < size - 1]. *)
Definition print_prerequisites (prereqs : list string) : string :=
  foldl
    (λ text i,
       text +:+ default EmptyString (prereqs !! i)
       +:+ (if decide (i < length prereqs - 1)%nat then ", " else EmptyString))
    EmptyString (seq 0 (length prereqs)).

(** What [printCourse] writes. *)
Definition printCourse (course : Course) : string :=
  (courseNumber course +:+ ", " +:+ name course +:+ endl)
  +:+ (if decide (length (prerequisites course) = 0%nat)
       then "No prerequisites" +:+ endl +:+ endl
       else "Prerequisites: " +:+ print_prerequisites (prerequisites course)
            +:+ endl +:+ endl).

(** What [printCourseList] writes. *)
Definition no_courses_loaded : string :=
  "No courses loaded. Please load data first." +:+ endl +:+ endl.

Definition printCourseList (courses : list Course) : string :=
  if decide (courses = []) then no_courses_loaded
  else foldl (λ text course, text +:+ printCourse course) EmptyString courses.

(** What [searchCourse] writes on the globals [w], [typed] being the word
    that [cin >> courseNumber] reads. *)
Definition searchCourse (typed : string) (w : Globals) : string :=
  ("What course do you want to know about? " +:+ endl)
  +:+ (if dataLoaded w then EmptyString
       else "Please load courses first." +:+ endl)
  +:+ match CourseHashTable.find (courseHashTable w) typed with
      | Some found => printCourse found
      | None => "Course " +:+ typed +:+ " not found." +:+ endl +:+ endl
      end.

(** ** The menu *)

Module Main.

(** What one turn of the loop of [main] meets: the number that [cin >> input]
    stores, the content of [courses.txt] should the turn load it, and the
    word that [searchCourse] reads should the turn search. *)
Record Turn := mkTurn {
  input : Z;
  file : option (list string);
  typed : string
}.

(** The vector of [main], the globals, and what was written so far. *)
Record state := mkState {
  courses : list Course;
  world : Globals;
  out : string
}.

Definition print (text : string) (st : state) : state :=
  mkState (courses st) (world st) (out st +:+ text).

Definition menu : string :=
  tab +:+ " 1. Load Data Structure." +:+ endl
  +:+ tab +:+ " 2. Print Course List." +:+ endl
  +:+ tab +:+ " 3. Print Course." +:+ endl
  +:+ tab +:+ " 4. Exit" +:+ endl
  +:+ endl
  +:+ "What would you like to do? ".

(** One turn of [while (true)]; the flag tells a [break]. *)
Definition turn (t : Turn) (st : state) : option (state * bool) :=
  let st := print (menu +:+ endl) st in
  if decide (input t = 4) then Some (st, true)
  else if decide (input t = 1) then
    '(loaded, w, msg) ← loadCoursesFile (file t) (world st);
    Some (mkState loaded w (out st +:+ message_text msg), false)
  else if decide (input t = 2) then
    Some (print (printCourseList (courses st)) st, false)
  else if decide (input t = 3) then
    Some (print (searchCourse (typed t) (world st)) st, false)
  else
    Some (print (pretty (input t) +:+ " is not a valid option." +:+ endl) st,
          false).

(** The loop over the turns that the input gives; the flag tells whether the
    loop was left. *)
Fixpoint loop (turns : list Turn) (st : state) : option (state * bool) :=
  match turns with
  | [] => Some (st, false)
  | t :: turns' =>
      '(st', exit) ← turn t st;
      if exit : bool then Some (st', true) else loop turns' st'
  end.

Definition start : state :=
  mkState [] (mkGlobals CourseHashTable.new PrerequisiteGraph.new false)
    ("Welcome to the course planner." +:+ endl +:+ endl).

(** [main] on the input [turns]. *)
Definition main (turns : list Turn) : option (state * bool) :=
  '(st, exit) ← loop turns start;
  Some (if exit : bool
        then print ("Thank you for using the course planner!" +:+ endl) st
        else st,
        exit).

(** What holds between the vector of [main] and the globals. *)
Definition consistent (st : state) : Prop :=
  ∃ records,
    stable_sort_of records (courses st)
    ∧ courseHashTable (world st) = store_of records
    ∧ prereqGraph (world st) = graph_of records
    ∧ (dataLoaded (world st) = true ↔ courses st ≠ []).

End Main.

(** * Properties *)

(** ** Case folding *)

Lemma tolower_toupper (c : ascii) : tolower (toupper c) = tolower c.
Proof. by destruct c as [[] [] [] [] [] [] [] []]. Qed.

Lemma tolower_tolower (c : ascii) : tolower (tolower c) = tolower c.
Proof. by destruct c as [[] [] [] [] [] [] [] []]. Qed.

Lemma toLower_toUpper (X : string) : toLower (toUpper X) = toLower X.
Proof.
  unfold toLower, toUpper.
  induction X as [|c X IH]; simpl; [done|]. by rewrite tolower_toupper, IH.
Qed.

Lemma toLower_toLower (X : string) : toLower (toLower X) = toLower X.
Proof.
  unfold toLower.
  induction X as [|c X IH]; simpl; [done|]. by rewrite tolower_tolower, IH.
Qed.

(** ** The course store *)

(** [find] only looks at the case-folded identifier. *)
Lemma find_fold_eq (h : CourseHashTable.t) (X Y : string) :
  toLower X = toLower Y → CourseHashTable.find h X = CourseHashTable.find h Y.
Proof. unfold CourseHashTable.find. by intros ->. Qed.

(** C6. After any sequence of ingests, looking an identifier up in upper case,
    in lower case or as given returns the same result. *)
Theorem find_case_insensitive (records : list Course) (X : string) :
  CourseHashTable.find (store_of records) (toUpper X)
    = CourseHashTable.find (store_of records) X
  ∧ CourseHashTable.find (store_of records) (toLower X)
    = CourseHashTable.find (store_of records) X.
Proof.
  split; apply find_fold_eq.
  - apply toLower_toUpper.
  - apply toLower_toLower.
Qed.

(** The entries of a map under a key that was just written: exactly one. *)
Lemma filter_key_insert {V} (m : gmap string V) (k : string) (v : V) :
  filter (λ kv, kv.1 = k) (map_to_list (<[k := v]> m)) = [(k, v)].
Proof.
  apply Permutation_singleton_r.
  rewrite <- insert_delete_eq.
  rewrite map_to_list_insert by apply lookup_delete_eq.
  rewrite filter_cons_True by done.
  f_equiv. apply Permutation_nil_r, elem_of_nil_inv.
  intros [k' v'] [Hk Hin]%list_elem_of_filter. simpl in Hk. subst k'.
  apply elem_of_map_to_list in Hin. by rewrite lookup_delete_eq in Hin.
Qed.

(** Writing under a key gives the same size whatever the value written. *)
Lemma size_insert_same_key {V} (m : gmap string V) (k : string) (v v' : V) :
  size (<[k := v]> m) = size (<[k := v']> m).
Proof.
  rewrite <- (insert_delete_eq m k v), <- (insert_delete_eq m k v').
  rewrite !map_size_insert_None; [done|apply lookup_delete_eq..].
Qed.

(** C7. Two records whose identifiers are equal up to case: after the second
    insert the store holds exactly one record under the lower-case key, the
    second one, both identifiers find it, and the size is that after the first
    insert. *)
Theorem insert_same_identifier_overwrites
    (h : CourseHashTable.t) (c1 c2 : Course) :
  toLower (courseNumber c1) = toLower (courseNumber c2) →
  let h1 := CourseHashTable.insert h c1 in
  let h2 := CourseHashTable.insert h1 c2 in
  filter (λ kc, kc.1 = toLower (courseNumber c1))
      (map_to_list (CourseHashTable.courseMap h2))
    = [(toLower (courseNumber c1), c2)]
  ∧ CourseHashTable.find h2 (courseNumber c1) = Some c2
  ∧ CourseHashTable.find h2 (courseNumber c2) = Some c2
  ∧ CourseHashTable.size h2 = CourseHashTable.size h1.
Proof.
  intros Hkey h1 h2. subst h1 h2.
  unfold CourseHashTable.find, CourseHashTable.size, CourseHashTable.insert.
  simpl. rewrite <- Hkey. repeat split.
  - apply filter_key_insert.
  - apply lookup_insert_eq.
  - apply lookup_insert_eq.
  - rewrite insert_insert_eq. apply size_insert_same_key.
Qed.

Lemma insert_same_identifier_overwrites_witness :
  toLower "CSCI100" = toLower "csci100"
  ∧ CourseHashTable.size
      (CourseHashTable.insert
         (CourseHashTable.insert CourseHashTable.new
            (mkCourse "CSCI100" "Introduction to Computer Science" []))
         (mkCourse "csci100" "Computing" []))
    = CourseHashTable.size
        (CourseHashTable.insert CourseHashTable.new
           (mkCourse "CSCI100" "Introduction to Computer Science" [])).
Proof.
  split; [reflexivity|].
  apply (insert_same_identifier_overwrites CourseHashTable.new
           (mkCourse "CSCI100" "Introduction to Computer Science" [])
           (mkCourse "csci100" "Computing" [])).
  reflexivity.
Defined.

(** ** The prerequisite graph: addCourse *)

Lemma push_back_at_eq (k x : string) (m : gmap string (list string)) :
  push_back_at k x m = <[k := default [] (m !! k) ++ [x]]> m.
Proof.
  unfold push_back_at, subscript.
  destruct (m !! k); simpl; [done|]. by rewrite insert_insert_eq.
Qed.

(** The forward list that the loop of [addCourse] builds under [courseKey]. *)
Lemma addCourse_loop_adjacency (courseKey : string) (prereqs : list string)
    (g0 : PrerequisiteGraph.t) (l0 : list string) :
  PrerequisiteGraph.adjacencyList g0 !! courseKey = Some l0 →
  PrerequisiteGraph.adjacencyList
      (foldl (PrerequisiteGraph.addCourse_step courseKey) g0 prereqs)
    = <[courseKey := l0 ++ (toLower <$> prereqs)]>
        (PrerequisiteGraph.adjacencyList g0).
Proof.
  revert g0 l0. induction prereqs as [|p ps IH]; intros g0 l0 H0; simpl.
  - rewrite app_nil_r. by rewrite insert_id.
  - rewrite (IH _ (l0 ++ [toLower p])); simpl.
    + rewrite push_back_at_eq, H0. simpl.
      rewrite insert_insert_eq, <- app_assoc. reflexivity.
    + rewrite push_back_at_eq, H0. simpl. apply lookup_insert_eq.
Qed.

(** The keys of the reverse map after the loop: the old ones and the
    prerequisites as the record writes them. *)
Lemma addCourse_loop_reverse_dom (courseKey : string) (prereqs : list string)
    (g0 : PrerequisiteGraph.t) :
  dom (PrerequisiteGraph.reverseList
         (foldl (PrerequisiteGraph.addCourse_step courseKey) g0 prereqs))
    = dom (PrerequisiteGraph.reverseList g0) ∪ list_to_set prereqs.
Proof.
  revert g0. induction prereqs as [|p ps IH]; intros g0; simpl.
  - set_solver.
  - rewrite IH. simpl. rewrite push_back_at_eq, dom_insert_L. set_solver.
Qed.

(** Every prerequisite has, under its own spelling, a reverse list that holds
    [courseKey]. *)
Lemma addCourse_loop_reverse_elem (courseKey : string) (prereqs : list string)
    (g0 : PrerequisiteGraph.t) (p : string) :
  p ∈ prereqs →
  ∃ dependents,
    PrerequisiteGraph.reverseList
      (foldl (PrerequisiteGraph.addCourse_step courseKey) g0 prereqs) !! p
      = Some dependents
    ∧ courseKey ∈ dependents.
Proof.
  revert g0. induction prereqs as [|x xs IH] using rev_ind; intros g0 Hin.
  - by apply elem_of_nil in Hin.
  - rewrite foldl_app. simpl. rewrite push_back_at_eq.
    destruct (decide (x = p)) as [->|Hne].
    + rewrite lookup_insert_eq. eexists. split; [done|]. set_solver.
    + rewrite lookup_insert_ne by done. apply IH. set_solver.
Qed.

(** C2. After [addCourse], the forward map has the lower-case identifier as
    key with the lower-case prerequisites as value, and the reverse map has,
    under each prerequisite exactly as the record writes it, a list that
    holds the lower-case identifier; the reverse map gains no other key. *)
Theorem addCourse_reverse_key_verbatim
    (g : PrerequisiteGraph.t) (course : Course) (p : string) :
  p ∈ prerequisites course →
  let g' := PrerequisiteGraph.addCourse g course in
  PrerequisiteGraph.adjacencyList g' !! toLower (courseNumber course)
    = Some (toLower <$> prerequisites course)
  ∧ (∃ dependents,
       PrerequisiteGraph.reverseList g' !! p = Some dependents
       ∧ toLower (courseNumber course) ∈ dependents)
  ∧ dom (PrerequisiteGraph.reverseList g')
    = dom (PrerequisiteGraph.reverseList g) ∪ list_to_set (prerequisites course).
Proof.
  intros Hin g'. subst g'. unfold PrerequisiteGraph.addCourse.
  repeat split.
  - rewrite (addCourse_loop_adjacency _ _ _ []); simpl.
    + by rewrite lookup_insert_eq.
    + by rewrite lookup_insert_eq.
  - by apply addCourse_loop_reverse_elem.
  - by rewrite addCourse_loop_reverse_dom.
Qed.

Lemma addCourse_reverse_key_verbatim_witness :
  "CSCI101"%string ∈ ["CSCI101"%string]
  ∧ (∃ dependents,
       PrerequisiteGraph.reverseList
         (PrerequisiteGraph.addCourse PrerequisiteGraph.new
            (mkCourse "CSCI200" "Data Structures" ["CSCI101"%string]))
         !! "CSCI101"%string = Some dependents
       ∧ "csci200"%string ∈ dependents).
Proof.
  split; [apply list_elem_of_here|].
  apply (addCourse_reverse_key_verbatim PrerequisiteGraph.new
           (mkCourse "CSCI200" "Data Structures" ["CSCI101"%string])
           "CSCI101"%string).
  apply list_elem_of_here.
Defined.

(** The lower-case spelling of an upper-case prerequisite is no key of the
    reverse map. *)
Example addCourse_reverse_key_not_folded :
  PrerequisiteGraph.reverseList
    (PrerequisiteGraph.addCourse PrerequisiteGraph.new
       (mkCourse "CSCI200" "Data Structures" ["CSCI101"%string]))
    !! "csci101"%string = None.
Proof. vm_compute. reflexivity. Qed.

(** ** The prerequisite graph: the traversal *)

Lemma subscript_seen (k : string) (v : gmap string bool) :
  (subscript false k v).1 = seen v k
  ∧ ∀ k', seen (subscript false k v).2 k' = seen v k'.
Proof.
  unfold subscript, seen. destruct (v !! k) eqn:E; simpl; split; try done.
  intros k'. destruct (decide (k = k')) as [<-|Hne].
  - by rewrite lookup_insert_eq, E.
  - by rewrite lookup_insert_ne.
Qed.

(** The loop over [reverseList[current]] lengthens the queue by at most the
    list and marks nothing as visited. *)
Lemma enqueue_loop (nexts : list string) (q0 : list string) (v : gmap string bool) :
  (length (foldl PrerequisiteGraph.enqueue_step (q0, v) nexts).1
     ≤ length q0 + length nexts)%nat
  ∧ ∀ k, seen (foldl PrerequisiteGraph.enqueue_step (q0, v) nexts).2 k = seen v k.
Proof.
  revert q0 v. induction nexts as [|n ns IH]; intros q0 v; simpl.
  - split; [lia|done].
  - unfold PrerequisiteGraph.enqueue_step at 2 4. simpl.
    destruct (subscript_seen n v) as [_ Hv].
    destruct (subscript false n v) as [b v1]. simpl in Hv.
    destruct b; simpl.
    + destruct (IH q0 v1) as [Hl Hs]. split; [lia|].
      intros k. by rewrite Hs, Hv.
    + destruct (IH (q0 ++ [n]) v1) as [Hl Hs]. rewrite length_app in Hl.
      simpl in Hl. split; [lia|]. intros k. by rewrite Hs, Hv.
Qed.

(** The queue after that loop: the courses of the list that are not visited
    are appended, in the order of the list. *)
Lemma enqueue_loop_queue (nexts : list string) (q0 : list string)
    (v : gmap string bool) :
  (foldl PrerequisiteGraph.enqueue_step (q0, v) nexts).1
  = q0 ++ filter (λ next, seen v next = false) nexts.
Proof.
  revert q0 v. induction nexts as [|n ns IH]; intros q0 v; simpl.
  - by rewrite app_nil_r.
  - unfold PrerequisiteGraph.enqueue_step at 2. simpl.
    destruct (subscript_seen n v) as [Hb Hv].
    destruct (subscript false n v) as [b v1]. simpl in Hb, Hv. subst b.
    assert (Hf : filter (λ next, seen v1 next = false) ns
                 = filter (λ next, seen v next = false) ns).
    { apply list_filter_iff. intros x. by rewrite Hv. }
    rewrite filter_cons. destruct (seen v n) eqn:Hn; simpl.
    + by rewrite IH, Hf.
    + by rewrite IH, Hf, <- app_assoc.
Qed.

Lemma pending_insert (m : gmap string (list string)) (v : gmap string bool)
    (i : string) (x : list string) :
  m !! i = None →
  pending (<[i := x]> m) v
    = ((if seen v i then 0 else length x) + pending m v)%nat.
Proof.
  intros Hi. unfold pending. rewrite map_fold_insert_L; [done| |done].
  intros. lia.
Qed.

Lemma pending_ext (m : gmap string (list string)) (v v' : gmap string bool) :
  (∀ k, seen v' k = seen v k) → pending m v' = pending m v.
Proof.
  intros Hv. induction m as [|i x m Hi IH] using map_ind; [done|].
  by rewrite !pending_insert, IH, Hv.
Qed.

Lemma seen_mark (v : gmap string bool) (c k : string) :
  seen (<[c := true]> v) k = if decide (c = k) then true else seen v k.
Proof.
  unfold seen. case_decide as H.
  - subst. by rewrite lookup_insert_eq.
  - by rewrite lookup_insert_ne.
Qed.

(** Marking [c] as visited takes its reverse list out of the pending ones. *)
Lemma pending_mark (m : gmap string (list string)) (v : gmap string bool)
    (c : string) :
  (pending m (<[c := true]> v)
   + (if seen v c then 0 else length (default [] (m !! c))))%nat
  = pending m v.
Proof.
  induction m as [|i x m Hi IH] using map_ind.
  - rewrite lookup_empty. simpl. unfold pending. rewrite !map_fold_empty.
    by destruct (seen v c).
  - rewrite !pending_insert by done. rewrite seen_mark.
    destruct (decide (c = i)) as [->|Hne].
    + rewrite lookup_insert_eq. rewrite Hi in IH. simpl in *.
      destruct (seen v i); lia.
    + rewrite lookup_insert_ne by done. lia.
Qed.

(** Each turn of the loop lowers the measure. *)
Lemma bfs_body_measure (reverseList : gmap string (list string))
    (courseKey current : string) (rest : list string) (st : PrerequisiteGraph.bfs) :
  PrerequisiteGraph.q st = current :: rest →
  (bfs_measure reverseList
     (PrerequisiteGraph.bfs_body reverseList courseKey current rest st)
   < bfs_measure reverseList st)%nat.
Proof.
  intros Hq. unfold bfs_measure. rewrite Hq. simpl.
  unfold PrerequisiteGraph.bfs_body.
  destruct (subscript_seen current (PrerequisiteGraph.visited st)) as [Hb Hv].
  destruct (subscript false current (PrerequisiteGraph.visited st)) as [b v1].
  simpl in Hb, Hv. subst b.
  destruct (seen (PrerequisiteGraph.visited st) current) eqn:Hseen; simpl.
  { rewrite (pending_ext _ _ _ Hv). lia. }
  destruct (subscript [] current (PrerequisiteGraph.adj st)) as [prereqs adj'].
  pose proof (pending_mark reverseList v1 current) as Hm.
  rewrite (Hv current), Hseen, (pending_ext _ _ _ Hv) in Hm.
  destruct (forallb _ prereqs); simpl; [|lia].
  destruct (reverseList !! current) as [nexts|] eqn:Hrev; simpl in *; [|lia].
  destruct (enqueue_loop nexts rest (<[current:=true]> v1)) as [Hl Hs].
  destruct (foldl PrerequisiteGraph.enqueue_step _ nexts) as [q' v'].
  simpl in *. rewrite (pending_ext _ _ _ Hs). lia.
Qed.

(** With at least as many turns as the measure the loop reaches its end. *)
Lemma bfs_loop_returns (reverseList : gmap string (list string))
    (courseKey : string) (fuel : nat) (st : PrerequisiteGraph.bfs) :
  (bfs_measure reverseList st ≤ fuel)%nat →
  is_Some (PrerequisiteGraph.bfs_loop fuel reverseList courseKey st).
Proof.
  revert st. induction fuel as [|fuel IH]; intros st Hm.
  - unfold bfs_measure in Hm.
    destruct (PrerequisiteGraph.q st) eqn:Hq; simpl in *; [|lia].
    rewrite Hq. eauto.
  - simpl. destruct (PrerequisiteGraph.q st) as [|current rest] eqn:Hq; [eauto|].
    apply IH.
    pose proof (bfs_body_measure reverseList courseKey current rest st Hq). lia.
Qed.

Lemma edges_pending (reverseList : gmap string (list string)) :
  PrerequisiteGraph.edges reverseList = pending reverseList ∅.
Proof.
  unfold PrerequisiteGraph.edges.
  induction reverseList as [|i x m Hi IH] using map_ind.
  - unfold pending. by rewrite !map_fold_empty.
  - rewrite pending_insert by done. rewrite <- IH.
    rewrite map_fold_insert_L; [done| |done]. intros. lia.
Qed.

(** What holds before the loop and is kept by each turn holds at its end. *)
Lemma bfs_loop_ind (P : PrerequisiteGraph.bfs → Prop)
    (reverseList : gmap string (list string)) (courseKey : string) :
  (∀ st current rest,
     PrerequisiteGraph.q st = current :: rest → P st →
     P (PrerequisiteGraph.bfs_body reverseList courseKey current rest st)) →
  ∀ fuel st st',
    P st → PrerequisiteGraph.bfs_loop fuel reverseList courseKey st = Some st' →
    P st' ∧ PrerequisiteGraph.q st' = [].
Proof.
  intros Hstep fuel. induction fuel as [|fuel IH]; intros st st' HP Hrun; simpl in Hrun.
  - destruct (PrerequisiteGraph.q st) eqn:Hq; [|done]. by simplify_eq.
  - destruct (PrerequisiteGraph.q st) as [|current rest] eqn:Hq.
    + by simplify_eq.
    + eapply IH; [|done]. by apply Hstep.
Qed.

Lemma subscript_spec {V} (dflt : V) (k : string) (m : gmap string V) :
  (subscript dflt k m).1 = default dflt (m !! k)
  ∧ ∀ k', (subscript dflt k m).2 !! k'
          = if decide (k = k') then Some (default dflt (m !! k)) else m !! k'.
Proof.
  unfold subscript. destruct (m !! k) eqn:E; simpl; split; try done.
  - intros k'. case_decide; by subst.
  - intros k'. case_decide.
    + subst. by rewrite lookup_insert_eq.
    + by rewrite lookup_insert_ne.
Qed.

(** Each turn of the loop keeps [bfs_inv]. *)
Lemma bfs_body_inv (adj0 reverseList : gmap string (list string))
    (courseKey current : string) (rest : list string) (st : PrerequisiteGraph.bfs) :
  bfs_inv adj0 courseKey st →
  bfs_inv adj0 courseKey
    (PrerequisiteGraph.bfs_body reverseList courseKey current rest st).
Proof.
  intros [Hadj Hav]. unfold PrerequisiteGraph.bfs_body.
  destruct (subscript_seen current (PrerequisiteGraph.visited st)) as [Hb Hv].
  destruct (subscript false current (PrerequisiteGraph.visited st)) as [b v1].
  simpl in Hb, Hv. subst b.
  destruct (seen (PrerequisiteGraph.visited st) current) eqn:Hseen; simpl.
  { split; simpl; [|done]. intros k. by rewrite Hv. }
  destruct (subscript_spec [] current (PrerequisiteGraph.adj st)) as [Hp Ha].
  destruct (subscript [] current (PrerequisiteGraph.adj st)) as [prereqs adj'].
  simpl in Hp, Ha.
  assert (Hprereqs : prereqs = forward adj0 current).
  { subst prereqs. unfold forward. rewrite (Hadj current), Hseen.
    by destruct (adj0 !! current). }
  assert (Hadj' : ∀ v', (∀ k, seen v' k = seen (<[current:=true]> v1) k) →
            ∀ k, adj' !! k = match adj0 !! k with
                             | Some l => Some l
                             | None => if seen v' k then Some [] else None
                             end).
  { intros v' Hv' k. rewrite Ha, Hv', seen_mark, Hv.
    case_decide as Hk; [|apply Hadj].
    subst k. rewrite <- Hp, Hprereqs. unfold forward.
    by destruct (adj0 !! current). }
  destruct (forallb _ prereqs) eqn:Hall; simpl.
  - assert (Hav' : ∀ d, d ∈ PrerequisiteGraph.available st ++ [current] →
              Forall (λ prereq, toLower prereq = courseKey) (forward adj0 d)).
    { intros d [Hd| ->%list_elem_of_singleton]%elem_of_app; [by apply Hav|].
      rewrite <- Hprereqs. apply Forall_forall. intros p Hin.
      rewrite forallb_forall in Hall. apply list_elem_of_In in Hin.
      specialize (Hall p Hin). by apply bool_decide_eq_true in Hall. }
    destruct (reverseList !! current) as [nexts|]; simpl.
    + destruct (enqueue_loop nexts rest (<[current:=true]> v1)) as [_ Hs].
      destruct (foldl PrerequisiteGraph.enqueue_step _ nexts) as [q' v'].
      simpl in *. split; simpl; [by apply Hadj'|done].
    + split; simpl; [by apply Hadj'|done].
  - split; simpl; [by apply Hadj'|done].
Qed.

Lemma foldl_push_back (l q0 : list string) :
  foldl (λ q dependent, q ++ [dependent]) q0 l = q0 ++ l.
Proof.
  revert q0. induction l as [|x l IH]; intros q0; simpl.
  - by rewrite app_nil_r.
  - by rewrite IH, <- app_assoc.
Qed.

(** [findAvailableCourses] unfolded: the early return, or the end state of the
    loop, which is reached and satisfies [bfs_inv]. *)
Lemma findAvailableCourses_spec (g : PrerequisiteGraph.t) (completedCourse : string) :
  match PrerequisiteGraph.reverseList g !! toLower completedCourse with
  | None => PrerequisiteGraph.findAvailableCourses g completedCourse = Some ([], g)
  | Some dependents =>
      ∃ st,
        PrerequisiteGraph.bfs_loop
          (length dependents + PrerequisiteGraph.edges (PrerequisiteGraph.reverseList g))
          (PrerequisiteGraph.reverseList g) (toLower completedCourse)
          (PrerequisiteGraph.mkBfs dependents ∅ [] (PrerequisiteGraph.adjacencyList g))
          = Some st
        ∧ PrerequisiteGraph.findAvailableCourses g completedCourse
          = Some (PrerequisiteGraph.available st,
                  PrerequisiteGraph.mk (PrerequisiteGraph.adj st)
                    (PrerequisiteGraph.reverseList g))
        ∧ bfs_inv (PrerequisiteGraph.adjacencyList g) (toLower completedCourse) st
  end.
Proof.
  unfold PrerequisiteGraph.findAvailableCourses.
  destruct (PrerequisiteGraph.reverseList g !! toLower completedCourse)
    as [dependents|] eqn:Hrev; [|done].
  rewrite foldl_push_back. simpl.
  set (st0 := PrerequisiteGraph.mkBfs dependents ∅ []
                (PrerequisiteGraph.adjacencyList g)).
  destruct (bfs_loop_returns (PrerequisiteGraph.reverseList g)
              (toLower completedCourse)
              (length dependents
               + PrerequisiteGraph.edges (PrerequisiteGraph.reverseList g)) st0)
    as [st Hst].
  { unfold bfs_measure. simpl. by rewrite edges_pending. }
  exists st. rewrite Hst. simpl. split; [done|]. split; [done|].
  edestruct (bfs_loop_ind (bfs_inv (PrerequisiteGraph.adjacencyList g)
                             (toLower completedCourse))) as [Hinv _];
    [| |exact Hst|exact Hinv].
  - intros. by apply bfs_body_inv.
  - split; simpl.
    + intros k. unfold seen. rewrite lookup_empty. simpl.
      by destruct (PrerequisiteGraph.adjacencyList g !! k).
    + intros d Hd. by apply elem_of_nil in Hd.
Qed.

(** [findAvailableCourses] returns: the loop never runs out of turns. *)
Lemma findAvailableCourses_returns (g : PrerequisiteGraph.t) (completedCourse : string) :
  is_Some (PrerequisiteGraph.findAvailableCourses g completedCourse).
Proof.
  pose proof (findAvailableCourses_spec g completedCourse) as H.
  destruct (PrerequisiteGraph.reverseList g !! toLower completedCourse).
  - destruct H as (st & _ & -> & _). eauto.
  - rewrite H. eauto.
Qed.

(** C1. On the example catalog, whose records write the prerequisites in
    upper case, [findAvailableCourses] for ["CSCI101"] returns no course at
    all, although ["csci200"] has ["csci101"] as its only forward entry: the
    dependents of CSCI101 are stored under ["CSCI101"] and looked up under
    ["csci101"].  For ["CSCI200"] it returns no course either. *)
Theorem example_available_after_csci101 :
  PrerequisiteGraph.findAvailableCourses example_graph "CSCI101"
    = Some ([], example_graph)
  ∧ PrerequisiteGraph.findAvailableCourses example_graph "CSCI200"
    = Some ([], example_graph)
  ∧ PrerequisiteGraph.adjacencyList example_graph !! "csci200"%string
    = Some ["csci101"%string]
  ∧ PrerequisiteGraph.reverseList example_graph !! "CSCI101"%string
    = Some ["csci200"%string]
  ∧ PrerequisiteGraph.reverseList example_graph !! "csci101"%string = None.
Proof. vm_compute. repeat split; reflexivity. Qed.

(** With the prerequisites in lower case in the records the traversal finds
    the dependents: CSCI200 after CSCI101, nothing after CSCI200. *)
Example example_lower_available_after :
  fst <$> PrerequisiteGraph.findAvailableCourses
            (graph_of example_records_lower) "CSCI101"
    = Some ["csci200"%string]
  ∧ fst <$> PrerequisiteGraph.findAvailableCourses
              (graph_of example_records_lower) "CSCI200"
    = Some [].
Proof. vm_compute. split; reflexivity. Qed.

(** Every course that [findAvailableCourses] returns has, in the graph of the
    call, a forward list whose entries all fold to the completed key. *)
Lemma findAvailableCourses_forward (g : PrerequisiteGraph.t)
    (completedCourse : string) (available : list string) (g' : PrerequisiteGraph.t) :
  PrerequisiteGraph.findAvailableCourses g completedCourse = Some (available, g') →
  ∀ d, d ∈ available →
    Forall (λ prereq, toLower prereq = toLower completedCourse)
      (forward (PrerequisiteGraph.adjacencyList g) d).
Proof.
  intros Hrun d Hd.
  pose proof (findAvailableCourses_spec g completedCourse) as H.
  destruct (PrerequisiteGraph.reverseList g !! toLower completedCourse).
  - destruct H as (st & _ & Heq & _ & Hav). rewrite Heq in Hrun.
    simplify_eq. by apply Hav.
  - rewrite H in Hrun. simplify_eq. by apply elem_of_nil in Hd.
Qed.

(** C3, as stated, fails: in no catalog does [findAvailableCourses] return a
    course that has prerequisites none of which is the completed course. *)
Lemma no_course_unlocked_through_another :
  ¬ ∃ (records : list Course) (completedCourse d : string)
      (available : list string) (g' : PrerequisiteGraph.t),
      PrerequisiteGraph.findAvailableCourses (graph_of records) completedCourse
        = Some (available, g')
      ∧ d ∈ available
      ∧ forward (PrerequisiteGraph.adjacencyList (graph_of records)) d ≠ []
      ∧ Forall (λ prereq, toLower prereq ≠ toLower completedCourse)
          (forward (PrerequisiteGraph.adjacencyList (graph_of records)) d).
Proof.
  intros (records & completedCourse & d & available & g' & Hrun & Hd & Hne & Hall).
  pose proof (findAvailableCourses_forward _ _ _ _ Hrun d Hd) as Heq.
  destruct (forward _ d) as [|p ps]; [done|].
  apply Forall_cons in Hall as [Hp _]. apply Forall_cons in Heq as [Hp' _]. done.
Qed.

(** On a chain the course behind the unlocked one is put in the queue and is
    not returned: its prerequisite is not the completed course. *)
Example chain_is_not_unlocked :
  fst <$> PrerequisiteGraph.findAvailableCourses (graph_of chain_records) "a"
    = Some ["b"%string]
  ∧ PrerequisiteGraph.adjacencyList (graph_of chain_records) !! "c"%string
    = Some ["b"%string].
Proof. vm_compute. split; reflexivity. Qed.

(** The one way a course that is no direct match comes back: its forward list
    is empty.  Here the last record of ["c"] has no prerequisite, and the
    reverse entry of its first record is still there. *)
Example rewritten_record_is_available :
  fst <$> PrerequisiteGraph.findAvailableCourses (graph_of rewritten_records) "a"
    = Some ["b"%string; "c"%string]
  ∧ PrerequisiteGraph.adjacencyList (graph_of rewritten_records) !! "c"%string
    = Some [].
Proof. vm_compute. split; reflexivity. Qed.

(** The turn of the loop on an available course: it is appended to the
    result, and its dependents that are not visited go to the queue. *)
Lemma bfs_body_available (reverseList : gmap string (list string))
    (courseKey current : string) (rest nexts : list string)
    (st : PrerequisiteGraph.bfs) :
  seen (PrerequisiteGraph.visited st) current = false →
  Forall (λ prereq, toLower prereq = courseKey)
    (forward (PrerequisiteGraph.adj st) current) →
  reverseList !! current = Some nexts →
  let st' := PrerequisiteGraph.bfs_body reverseList courseKey current rest st in
  PrerequisiteGraph.available st' = PrerequisiteGraph.available st ++ [current]
  ∧ PrerequisiteGraph.q st'
    = rest ++ filter (λ next, next ≠ current
                              ∧ seen (PrerequisiteGraph.visited st) next = false)
                nexts.
Proof.
  intros Hseen Hall Hrev. unfold PrerequisiteGraph.bfs_body.
  destruct (subscript_seen current (PrerequisiteGraph.visited st)) as [Hb Hv].
  destruct (subscript false current (PrerequisiteGraph.visited st)) as [b v1].
  simpl in Hb, Hv. subst b. rewrite Hseen.
  destruct (subscript_spec [] current (PrerequisiteGraph.adj st)) as [Hp _].
  destruct (subscript [] current (PrerequisiteGraph.adj st)) as [prereqs adj'].
  simpl in Hp. fold (forward (PrerequisiteGraph.adj st) current) in Hp.
  subst prereqs.
  assert (forallb (λ prereq, bool_decide (toLower prereq = courseKey))
            (forward (PrerequisiteGraph.adj st) current) = true) as ->.
  { apply forallb_forall. intros p Hin%list_elem_of_In.
    apply bool_decide_eq_true. rewrite Forall_forall in Hall. by apply Hall. }
  rewrite Hrev.
  pose proof (enqueue_loop_queue nexts rest (<[current:=true]> v1)) as Hq.
  destruct (foldl PrerequisiteGraph.enqueue_step _ nexts) as [q' v'] eqn:E.
  simpl in *. split; [done|]. rewrite Hq. f_equal.
  apply list_filter_iff. intros next. rewrite seen_mark, Hv.
  case_decide; naive_solver.
Qed.

(** C3, amended.  The turn of the loop on an available course appends it to
    the result and puts its dependents that are not visited in the queue; yet
    [findAvailableCourses] returns, and every course it returns, dependents of
    an available course included, has a forward list whose entries,
    case-folded, all equal the lower-case completed identifier. *)
Theorem available_courses_name_only_completed
    (g : PrerequisiteGraph.t) (completedCourse : string) :
  (∀ (current : string) (rest nexts : list string) (st : PrerequisiteGraph.bfs),
     seen (PrerequisiteGraph.visited st) current = false →
     Forall (λ prereq, toLower prereq = toLower completedCourse)
       (forward (PrerequisiteGraph.adj st) current) →
     PrerequisiteGraph.reverseList g !! current = Some nexts →
     let st' := PrerequisiteGraph.bfs_body (PrerequisiteGraph.reverseList g)
                  (toLower completedCourse) current rest st in
     PrerequisiteGraph.available st' = PrerequisiteGraph.available st ++ [current]
     ∧ PrerequisiteGraph.q st'
       = rest ++ filter (λ next, next ≠ current
                                 ∧ seen (PrerequisiteGraph.visited st) next = false)
                   nexts)
  ∧ ∃ (available : list string) (g' : PrerequisiteGraph.t),
      PrerequisiteGraph.findAvailableCourses g completedCourse = Some (available, g')
      ∧ ∀ d, d ∈ available →
          Forall (λ prereq, toLower prereq = toLower completedCourse)
            (forward (PrerequisiteGraph.adjacencyList g) d).
Proof.
  split; [intros; by apply bfs_body_available|].
  destruct (findAvailableCourses_returns g completedCourse) as [[available g'] Hrun].
  exists available, g'. split; [done|].
  by apply (findAvailableCourses_forward g completedCourse available g').
Qed.

(** *** Graphs built by [addCourse] alone *)

Lemma push_back_at_lookup (k x k' : string) (m : gmap string (list string)) :
  push_back_at k x m !! k'
  = if decide (k = k') then Some (default [] (m !! k) ++ [x]) else m !! k'.
Proof.
  rewrite push_back_at_eq. case_decide.
  - subst. by rewrite lookup_insert_eq.
  - by rewrite lookup_insert_ne.
Qed.

Lemma addCourse_step_registered (courseKey prereq : string)
    (g : PrerequisiteGraph.t) :
  dependents_registered g ∧ is_Some (PrerequisiteGraph.adjacencyList g !! courseKey) →
  dependents_registered (PrerequisiteGraph.addCourse_step courseKey g prereq)
  ∧ is_Some (PrerequisiteGraph.adjacencyList
               (PrerequisiteGraph.addCourse_step courseKey g prereq) !! courseKey).
Proof.
  intros [Hreg Hkey].
  assert (Hadj : ∀ d, is_Some (PrerequisiteGraph.adjacencyList g !! d) →
            is_Some (PrerequisiteGraph.adjacencyList
                       (PrerequisiteGraph.addCourse_step courseKey g prereq) !! d)).
  { intros d Hd. simpl. rewrite push_back_at_lookup. by case_decide. }
  split; [|by apply Hadj].
  intros k l d Hk Hd. simpl in Hk. rewrite push_back_at_lookup in Hk.
  case_decide as Hkp.
  - simplify_eq. apply elem_of_app in Hd as [Hd|Hd].
    + apply Hadj.
      destruct (PrerequisiteGraph.reverseList g !! k) as [l0|] eqn:E;
        simpl in Hd; [by eapply Hreg|by apply elem_of_nil in Hd].
    + apply list_elem_of_singleton in Hd. subst d. by apply Hadj.
  - apply Hadj. by eapply Hreg.
Qed.

Lemma addCourse_registered (g : PrerequisiteGraph.t) (course : Course) :
  dependents_registered g →
  dependents_registered (PrerequisiteGraph.addCourse g course).
Proof.
  intros Hreg. unfold PrerequisiteGraph.addCourse.
  set (courseKey := toLower (courseNumber course)).
  set (g0 := PrerequisiteGraph.mk _ _).
  assert (H0 : dependents_registered g0
               ∧ is_Some (PrerequisiteGraph.adjacencyList g0 !! courseKey)).
  { split; [|simpl; rewrite lookup_insert_eq; eauto].
    intros k l d Hk Hd. simpl in *.
    destruct (decide (courseKey = d)) as [->|Hne].
    - rewrite lookup_insert_eq. eauto.
    - rewrite lookup_insert_ne by done. by eapply Hreg. }
  clearbody g0. revert g0 H0.
  induction (prerequisites course) as [|p ps IH]; intros g0 H0; simpl.
  - apply H0.
  - apply IH. by apply addCourse_step_registered.
Qed.

Lemma graph_of_registered (records : list Course) :
  dependents_registered (graph_of records).
Proof.
  unfold graph_of.
  assert (H0 : dependents_registered PrerequisiteGraph.new).
  { intros k l d Hk. simpl in Hk. by rewrite lookup_empty in Hk. }
  revert H0. generalize PrerequisiteGraph.new.
  induction records as [|c cs IH]; intros g Hg; simpl; [done|].
  apply IH. by apply addCourse_registered.
Qed.

(** The courses that the loop over [reverseList[current]] puts in the queue
    come from that list. *)
Lemma enqueue_loop_elem (nexts : list string) (q0 : list string)
    (v : gmap string bool) (d : string) :
  d ∈ (foldl PrerequisiteGraph.enqueue_step (q0, v) nexts).1 →
  d ∈ q0 ∨ d ∈ nexts.
Proof.
  revert q0 v. induction nexts as [|n ns IH]; intros q0 v; simpl; [by left|].
  unfold PrerequisiteGraph.enqueue_step at 2. simpl.
  destruct (subscript false n v) as [b v1]. destruct b; simpl; intros Hd.
  - apply IH in Hd. set_solver.
  - apply IH in Hd. set_solver.
Qed.

(** In a graph where every dependent has a forward entry the loop only
    dequeues and visits courses that have one. *)
Lemma bfs_body_registered (adj0 reverseList : gmap string (list string))
    (courseKey current : string) (rest : list string) (st : PrerequisiteGraph.bfs) :
  (∀ k l d, reverseList !! k = Some l → d ∈ l → is_Some (adj0 !! d)) →
  PrerequisiteGraph.q st = current :: rest →
  (∀ d, d ∈ PrerequisiteGraph.q st → is_Some (adj0 !! d))
  ∧ (∀ k, seen (PrerequisiteGraph.visited st) k = true → is_Some (adj0 !! k)) →
  let st' := PrerequisiteGraph.bfs_body reverseList courseKey current rest st in
  (∀ d, d ∈ PrerequisiteGraph.q st' → is_Some (adj0 !! d))
  ∧ (∀ k, seen (PrerequisiteGraph.visited st') k = true → is_Some (adj0 !! k)).
Proof.
  intros Hreg Hq [HQ HV]. rewrite Hq in HQ. unfold PrerequisiteGraph.bfs_body.
  destruct (subscript_seen current (PrerequisiteGraph.visited st)) as [Hb Hv].
  destruct (subscript false current (PrerequisiteGraph.visited st)) as [b v1].
  simpl in Hb, Hv. subst b.
  assert (Hrest : ∀ d, d ∈ rest → is_Some (adj0 !! d)) by set_solver.
  destruct (seen (PrerequisiteGraph.visited st) current) eqn:Hseen; simpl.
  { split; [done|]. intros k. rewrite Hv. apply HV. }
  destruct (subscript [] current (PrerequisiteGraph.adj st)) as [prereqs adj'].
  assert (Hmark : ∀ v', (∀ k, seen v' k = seen (<[current:=true]> v1) k) →
            ∀ k, seen v' k = true → is_Some (adj0 !! k)).
  { intros v' Hv' k. rewrite Hv', seen_mark, Hv.
    case_decide; [subst; intros _; apply HQ; set_solver|apply HV]. }
  destruct (forallb _ prereqs); simpl; [|split; [done|by apply Hmark]].
  destruct (reverseList !! current) as [nexts|] eqn:Hrev; simpl;
    [|split; [done|by apply Hmark]].
  pose proof (enqueue_loop_elem nexts rest (<[current:=true]> v1)) as He.
  destruct (enqueue_loop nexts rest (<[current:=true]> v1)) as [_ Hs].
  destruct (foldl PrerequisiteGraph.enqueue_step _ nexts) as [q' v'].
  simpl in *. split; [|by apply Hmark].
  intros d [Hd|Hd]%He; [by apply Hrest|by eapply Hreg].
Qed.

(** On a graph built by [addCourse] alone, [findAvailableCourses] adds no
    forward entry: the graph after the call is the graph before. *)
Lemma findAvailableCourses_registered (g : PrerequisiteGraph.t)
    (completedCourse : string) :
  dependents_registered g →
  ∃ available,
    PrerequisiteGraph.findAvailableCourses g completedCourse = Some (available, g).
Proof.
  intros Hreg. pose proof (findAvailableCourses_spec g completedCourse) as H.
  destruct (PrerequisiteGraph.reverseList g !! toLower completedCourse)
    as [dependents|] eqn:Hrev; [|eauto].
  destruct H as (st & Hloop & Heq & Hadj & _).
  exists (PrerequisiteGraph.available st). rewrite Heq. do 2 f_equal.
  destruct g as [adj0 rev0]. simpl in *. f_equal. apply map_eq. intros k.
  rewrite Hadj. destruct (adj0 !! k) eqn:Hk; [done|].
  destruct (seen (PrerequisiteGraph.visited st) k) eqn:Hseen; [|done].
  edestruct (bfs_loop_ind
    (λ st, (∀ d, d ∈ PrerequisiteGraph.q st → is_Some (adj0 !! d))
           ∧ (∀ k, seen (PrerequisiteGraph.visited st) k = true →
                is_Some (adj0 !! k)))) as [[_ HV] _]; [| |exact Hloop|].
  - intros st1 current rest Hq HJ. by apply bfs_body_registered.
  - simpl. split; [intros d Hd; by eapply Hreg|].
    intros k'. unfold seen. by rewrite lookup_empty.
  - apply HV in Hseen. rewrite Hk in Hseen. by destruct Hseen.
Qed.

(** MATH201 was never added to the example graph: asking for its
    prerequisites adds the key ["math201"] to the adjacency map. *)
Example getPrerequisites_adds_entry :
  PrerequisiteGraph.adjacencyList example_graph !! "math201"%string = None
  ∧ PrerequisiteGraph.adjacencyList
      (PrerequisiteGraph.getPrerequisites example_graph "MATH201").2
      !! "math201"%string = Some [].
Proof. vm_compute. split; reflexivity. Qed.

(** A dequeued course without forward entry gets an empty one. *)
Example findAvailableCourses_adds_entry :
  PrerequisiteGraph.findAvailableCourses dangling_graph "a"
    = Some (["b"%string],
            PrerequisiteGraph.mk {[ "b"%string := [] ]}
              (PrerequisiteGraph.reverseList dangling_graph)).
Proof. vm_compute. reflexivity. Qed.

(** ** The loader *)

(** The reading loop does not look at [dataLoaded]. *)
Lemma read_lines_dataLoaded (lines : list string) (cs : list Course) (e : bool)
    (h : CourseHashTable.t) (g : PrerequisiteGraph.t) (b b' : bool) :
  match read_lines lines (mkReading cs e (mkGlobals h g b)) with
  | Some st =>
      read_lines lines (mkReading cs e (mkGlobals h g b'))
      = Some (mkReading (courses st) (entered st) (set_dataLoaded b' (globals st)))
  | None => read_lines lines (mkReading cs e (mkGlobals h g b')) = None
  end.
Proof.
  revert cs e h g. induction lines as [|line lines IH]; intros cs e h g; simpl.
  - done.
  - destruct (String.eqb line "-1"); [done|].
    destruct (format line !! 0%nat) as [number|]; simpl; [|done].
    destruct (format line !! 1%nat) as [title|]; simpl; [|done].
    apply IH.
Qed.

(** The outcome of a load does not depend on the globals before it. *)
Lemma loadCoursesFile_prior_state (file : option (list string)) (w w' : Globals) :
  loadCoursesFile file w' = loadCoursesFile file w.
Proof.
  unfold loadCoursesFile, set_prereqGraph, set_courseHashTable. simpl.
  pose proof (read_lines_dataLoaded (default [] file) [] false
                CourseHashTable.new PrerequisiteGraph.new
                (dataLoaded w) (dataLoaded w')) as H.
  destruct (read_lines _ (mkReading [] false (mkGlobals _ _ (dataLoaded w))))
    as [st|]; rewrite H; simpl; [|done].
  by destruct st as [cs e [h g b]].
Qed.

(** The reading loop appends the records it parses to the vector and ingests
    them, in the order of the file, into the store and the graph. *)
Lemma read_lines_records (lines : list string) (st st' : reading) :
  read_lines lines st = Some st' →
  ∃ records,
    courses st' = courses st ++ records
    ∧ courseHashTable (globals st')
      = foldl CourseHashTable.insert (courseHashTable (globals st)) records
    ∧ prereqGraph (globals st')
      = foldl PrerequisiteGraph.addCourse (prereqGraph (globals st)) records
    ∧ dataLoaded (globals st') = dataLoaded (globals st).
Proof.
  revert st. induction lines as [|line lines IH]; intros st Hread; simpl in Hread.
  - simplify_eq. exists []. by rewrite app_nil_r.
  - destruct (String.eqb line "-1").
    { simplify_eq. exists []. by rewrite app_nil_r. }
    destruct (format line !! 0%nat) as [number|]; simpl in Hread; [|done].
    destruct (format line !! 1%nat) as [title|]; simpl in Hread; [|done].
    apply IH in Hread as (records & Hc & Hh & Hg & Hd). simpl in *.
    exists (mkCourse number title (drop 2 (format line)) :: records).
    simpl. by rewrite Hc, <- app_assoc.
Qed.

(** C4, as stated, fails: after a successful load of the example catalog, a
    load that cannot open the file leaves an empty store and an empty graph. *)
Lemma failed_load_discards_catalog :
  loadCoursesFile None example_globals
    = Some ([], mkGlobals CourseHashTable.new PrerequisiteGraph.new false,
            CouldNotAccess)
  ∧ courseHashTable example_globals ≠ CourseHashTable.new
  ∧ prereqGraph example_globals ≠ PrerequisiteGraph.new.
Proof.
  split; [reflexivity|]. split; intros H.
  - apply (f_equal (λ h, CourseHashTable.find h "CSCI200")) in H.
    vm_compute in H. discriminate.
  - apply (f_equal (λ g, PrerequisiteGraph.adjacencyList g !! "csci200"%string)) in H.
    vm_compute in H. discriminate.
Qed.

(** ** The order on identifiers *)

Lemma ascii_compare_refl (c : ascii) : Ascii.compare c c = Eq.
Proof. unfold Ascii.compare. apply N.compare_refl. Qed.

Lemma string_compare_trans (s1 s2 s3 : string) :
  String.compare s1 s2 ≠ Gt → String.compare s2 s3 ≠ Gt →
  String.compare s1 s3 ≠ Gt.
Proof.
  revert s2 s3. induction s1 as [|c1 s1 IH]; intros [|c2 s2] [|c3 s3];
    simpl; try done.
  destruct (Ascii.compare c1 c2) eqn:E12; [|..|done];
    destruct (Ascii.compare c2 c3) eqn:E23; try done.
  - apply Ascii.compare_eq_iff in E12, E23. subst.
    rewrite ascii_compare_refl. apply IH.
  - apply Ascii.compare_eq_iff in E12. subst. by rewrite E23.
  - apply Ascii.compare_eq_iff in E23. subst. by rewrite E12.
  - unfold Ascii.compare in *. rewrite N.compare_lt_iff in E12, E23.
    assert ((N_of_ascii c1 ?= N_of_ascii c3)%N = Lt) as ->; [|done].
    apply N.compare_lt_iff. lia.
Qed.

Lemma string_leb_trans (s1 s2 s3 : string) :
  String.leb s1 s2 = true → String.leb s2 s3 = true → String.leb s1 s3 = true.
Proof.
  unfold String.leb. intros H12 H23.
  pose proof (string_compare_trans s1 s2 s3) as H.
  destruct (String.compare s1 s2), (String.compare s2 s3),
    (String.compare s1 s3); try done; exfalso; by apply H.
Qed.

(** [String.leb] is the order of [std::string]: the first bytes that differ
    decide, compared as unsigned numbers, and a proper prefix is smaller. *)
Lemma string_leb_bytes (c1 c2 : ascii) (s1 s2 : string) :
  String.leb EmptyString s2 = true
  ∧ String.leb (String c1 s1) EmptyString = false
  ∧ String.leb (String c1 s1) (String c2 s2)
    = if (N_of_ascii c1 <? N_of_ascii c2)%N then true
      else if (N_of_ascii c1 =? N_of_ascii c2)%N then String.leb s1 s2
      else false.
Proof.
  split; [by destruct s2|]. split; [done|].
  unfold String.leb. simpl. unfold Ascii.compare.
  destruct (N.compare_spec (N_of_ascii c1) (N_of_ascii c2)) as [H|H|H].
  - rewrite H, N.ltb_irrefl, N.eqb_refl. done.
  - apply N.ltb_lt in H. by rewrite H.
  - assert ((N_of_ascii c1 <? N_of_ascii c2)%N = false) as -> by (apply N.ltb_ge; lia).
    assert ((N_of_ascii c1 =? N_of_ascii c2)%N = false) as -> by (apply N.eqb_neq; lia).
    done.
Qed.

Lemma string_leb_refl (s : string) : String.leb s s = true.
Proof. by destruct (String.leb_total s s). Qed.

#[local] Instance course_le_total : Total course_le.
Proof. intros c1 c2. apply String.leb_total. Qed.

#[local] Instance course_le_trans : Transitive course_le.
Proof. intros c1 c2 c3. apply string_leb_trans. Qed.

(** [course_le] only looks at the identifiers. *)
Lemma course_le_number (c1 c2 c2' : Course) :
  courseNumber c2 = courseNumber c2' → course_le c1 c2 → course_le c1 c2'.
Proof. unfold course_le. by intros ->. Qed.

Lemma course_le_if {A} (c1 c2 : Course) (a b : A) :
  (if String.leb (courseNumber c1) (courseNumber c2) then a else b)
  = if decide (course_le c1 c2) then a else b.
Proof.
  destruct (String.leb (courseNumber c1) (courseNumber c2)) eqn:E.
  - by rewrite decide_True.
  - rewrite decide_False; [done|]. unfold course_le. by rewrite E.
Qed.

(** ** Merging two lists *)

(** A stable merge: of the records with identifier [x], those of the left list
    come first, when the left list is sorted. *)
Lemma with_number_list_merge (x : string) (l1 l2 : list Course) :
  StronglySorted course_le l1 →
  with_number x (list_merge course_le l1 l2)
  = with_number x l1 ++ with_number x l2.
Proof.
  unfold with_number. revert l2.
  induction l1 as [|x1 l1 IH1]; intros l2 Hs; [by rewrite list_merge_nil_l|].
  pose proof Hs as [Hall Hs1]%StronglySorted_cons.
  induction l2 as [|x2 l2 IH2]; [by rewrite list_merge_nil_r, app_nil_r|].
  rewrite list_merge_cons. case_decide as Hle.
  - rewrite filter_cons, (IH1 _ Hs1), (filter_cons _ x1 l1). by case_decide.
  - rewrite filter_cons, IH2. rewrite (filter_cons _ x2 l2).
    case_decide as Hx2; [|done].
    assert (filter (λ c, courseNumber c = x) (x1 :: l1) = []) as ->; [|done].
    apply elem_of_nil_inv. intros c [Hc Hin]%list_elem_of_filter.
    apply Hle. apply (course_le_number x1 c x2); [congruence|].
    apply elem_of_cons in Hin as [->|Hin]; [apply string_leb_refl|].
    rewrite Forall_forall in Hall. by apply Hall.
Qed.

(** Merging the two parts of a sorted list gives the list back. *)
Lemma list_merge_sorted_app (l1 l2 : list Course) :
  StronglySorted course_le (l1 ++ l2) →
  list_merge course_le l1 l2 = l1 ++ l2.
Proof.
  revert l2. induction l1 as [|x1 l1 IH]; intros l2 Hs;
    [by rewrite list_merge_nil_l|].
  destruct l2 as [|x2 l2]; [by rewrite list_merge_nil_r, app_nil_r|].
  rewrite list_merge_cons. rewrite decide_True.
  - simpl. f_equal. apply IH. simpl in Hs.
    by apply StronglySorted_cons in Hs as [_ Hs].
  - apply (StronglySorted_app_1_elem_of _ _ _ _ _ Hs); set_solver.
Qed.

(** ** Vectors *)

Lemma vec_get_middle (v l1 l2 : list Course) (x : Course) (i : Z) :
  v = l1 ++ x :: l2 → i = Z.of_nat (length l1) →
  MergeSort.vec_get v i = Some x.
Proof.
  intros -> ->. unfold MergeSort.vec_get. rewrite decide_True by lia.
  rewrite Nat2Z.id. by apply list_lookup_middle.
Qed.

Lemma vec_set_middle (v l1 l2 : list Course) (x y : Course) (i : Z) :
  v = l1 ++ y :: l2 → i = Z.of_nat (length l1) →
  MergeSort.vec_set v i x = Some (l1 ++ x :: l2).
Proof.
  intros -> ->. unfold MergeSort.vec_set.
  rewrite decide_True by (rewrite length_app; simpl; lia).
  rewrite Nat2Z.id. f_equal.
  rewrite <- (Nat.add_0_r (length l1)). by rewrite insert_app_r.
Qed.

(** The copy loop of [merge] on the part [xs2] that is still to copy. *)
Lemma copy_loop_frame (xs2 : list Course) :
  ∀ (src pre xs1 post dst d1 d2 : list Course) (off n i : Z),
    src = pre ++ xs1 ++ xs2 ++ post →
    dst = d1 ++ d2 →
    off = Z.of_nat (length pre) →
    i = Z.of_nat (length xs1) →
    n = Z.of_nat (length xs1 + length xs2) →
    length d1 = length xs1 →
    length d2 = length xs2 →
    MergeSort.copy_loop src off n dst i = Some (d1 ++ xs2).
Proof.
  induction xs2 as [|x xs2 IH];
    intros src pre xs1 post dst d1 d2 off n i Hsrc Hdst Hoff Hi Hn Hd1 Hd2;
    rewrite MergeSort.copy_loop_equation_1.
  - rewrite decide_False by (simpl in Hn; lia).
    destruct d2; [|done]. by subst.
  - rewrite decide_True by (simpl in Hn; lia).
    destruct d2 as [|y d2]; [done|].
    rewrite (vec_get_middle src (pre ++ xs1) (xs2 ++ post) x).
    2:{ subst src. by rewrite <- app_assoc. }
    2:{ rewrite length_app. lia. }
    simpl. rewrite (vec_set_middle dst d1 d2 x y); [|done|lia]. simpl.
    rewrite (IH src pre (xs1 ++ [x]) post _ (d1 ++ [x]) d2 off n (i + 1)).
    + by rewrite <- app_assoc.
    + subst src. by rewrite <- !app_assoc.
    + by rewrite <- app_assoc.
    + done.
    + rewrite length_app. simpl. lia.
    + rewrite length_app. simpl in *. lia.
    + rewrite !length_app. simpl. lia.
    + simpl in Hd2. lia.
Qed.

(** The loops of [merge] that copy what is left, [a2], of an array. *)
Lemma copy_rest_frame (a2 : list Course) :
  ∀ (a a1 courses cpre hole cpost : list Course) (n i k : Z),
    a = a1 ++ a2 →
    courses = cpre ++ hole ++ cpost →
    i = Z.of_nat (length a1) →
    n = Z.of_nat (length a1 + length a2) →
    k = Z.of_nat (length cpre) →
    length hole = length a2 →
    MergeSort.copy_rest a n courses i k
    = Some (cpre ++ a2 ++ cpost, n, k + Z.of_nat (length a2)).
Proof.
  induction a2 as [|x a2 IH];
    intros a a1 courses cpre hole cpost n i k Ha Hc Hi Hn Hk Hh;
    rewrite MergeSort.copy_rest_equation_1.
  - rewrite decide_False by (simpl in Hn; lia).
    destruct hole; [|done]. subst. simpl. do 3 f_equal; lia.
  - rewrite decide_True by (simpl in Hn; lia).
    destruct hole as [|y hole]; [done|].
    rewrite (vec_get_middle a a1 a2 x) by done. simpl.
    rewrite (vec_set_middle courses cpre (hole ++ cpost) x y) by done. simpl.
    rewrite (IH a (a1 ++ [x]) _ (cpre ++ [x]) hole cpost n (i + 1) (k + 1)).
    + rewrite <- app_assoc. simpl. do 2 f_equal. lia.
    + subst a. by rewrite <- app_assoc.
    + by rewrite <- app_assoc.
    + rewrite length_app. simpl. lia.
    + rewrite length_app. simpl in *. lia.
    + rewrite length_app. simpl. lia.
    + simpl in Hh. lia.
Qed.

(** ** merge *)

(** The loops of [merge], entered when [l2] and [r2] are what is left of the
    two arrays and [hole] is the part of the vector still to write, write the
    merge of [l2] and [r2] there. *)
Lemma merge_loops_frame (l2 : list Course) :
  ∀ (r2 leftArray rightArray l1 r1 courses cpre hole cpost : list Course)
    (n1 n2 i j k : Z),
    leftArray = l1 ++ l2 →
    rightArray = r1 ++ r2 →
    courses = cpre ++ hole ++ cpost →
    n1 = Z.of_nat (length l1 + length l2) →
    n2 = Z.of_nat (length r1 + length r2) →
    i = Z.of_nat (length l1) →
    j = Z.of_nat (length r1) →
    k = Z.of_nat (length cpre) →
    length hole = (length l2 + length r2)%nat →
    MergeSort.merge_loops leftArray rightArray n1 n2 courses i j k
    = Some (cpre ++ list_merge course_le l2 r2 ++ cpost).
Proof.
  induction l2 as [|x l2 IHl].
  { (* the left array is used up: the third loop copies [r2] *)
    intros r2 leftArray rightArray l1 r1 courses cpre hole cpost n1 n2 i j k
      HL HR Hc Hn1 Hn2 Hi Hj Hk Hh.
    unfold MergeSort.merge_loops. rewrite MergeSort.merge_while_equation_1.
    rewrite decide_False by (simpl in Hn1; lia). simpl.
    rewrite MergeSort.copy_rest_equation_1.
    rewrite decide_False by (simpl in Hn1; lia). simpl.
    rewrite (copy_rest_frame r2 rightArray r1 courses cpre hole cpost n2 j k)
      by done.
    simpl. by rewrite list_merge_nil_l. }
  induction r2 as [|y r2 IHr];
    intros leftArray rightArray l1 r1 courses cpre hole cpost n1 n2 i j k
      HL HR Hc Hn1 Hn2 Hi Hj Hk Hh.
  { (* the right array is used up: the second loop copies [x :: l2] *)
    unfold MergeSort.merge_loops. rewrite MergeSort.merge_while_equation_1.
    rewrite decide_False by (simpl in Hn2; lia). simpl.
    rewrite (copy_rest_frame (x :: l2) leftArray l1 courses cpre hole cpost n1 i k);
      [|try done..].
    2:{ simpl in *. lia. }
    simpl. rewrite MergeSort.copy_rest_equation_1.
    rewrite decide_False by (simpl in Hn2; lia). simpl.
    done. }
  (* both arrays have a head *)
  rewrite list_merge_cons.
  unfold MergeSort.merge_loops. rewrite MergeSort.merge_while_equation_1.
  rewrite decide_True by (simpl in Hn1, Hn2; lia).
  rewrite (vec_get_middle leftArray l1 l2 x) by done. simpl.
  rewrite (vec_get_middle rightArray r1 r2 y) by done. simpl.
  destruct hole as [|h hole]; [done|].
  rewrite course_le_if. case_decide as Hle.
  - rewrite (vec_set_middle courses cpre (hole ++ cpost) x h) by done. simpl.
    fold (MergeSort.merge_loops leftArray rightArray n1 n2
            (cpre ++ x :: hole ++ cpost) (i + 1) j (k + 1)).
    rewrite (IHl (y :: r2) leftArray rightArray (l1 ++ [x]) r1 _
               (cpre ++ [x]) hole cpost n1 n2 (i + 1) j (k + 1)).
    + by rewrite <- app_assoc.
    + subst leftArray. by rewrite <- app_assoc.
    + done.
    + by rewrite <- app_assoc.
    + rewrite length_app. simpl in *. lia.
    + done.
    + rewrite length_app. simpl. lia.
    + done.
    + rewrite length_app. simpl. lia.
    + simpl in *. lia.
  - rewrite (vec_set_middle courses cpre (hole ++ cpost) y h) by done. simpl.
    fold (MergeSort.merge_loops leftArray rightArray n1 n2
            (cpre ++ y :: hole ++ cpost) i (j + 1) (k + 1)).
    rewrite (IHr leftArray rightArray l1 (r1 ++ [y]) _
               (cpre ++ [y]) hole cpost n1 n2 i (j + 1) (k + 1)).
    + by rewrite <- app_assoc.
    + done.
    + subst rightArray. by rewrite <- app_assoc.
    + by rewrite <- app_assoc.
    + done.
    + rewrite length_app. simpl in *. lia.
    + done.
    + rewrite length_app. simpl. lia.
    + rewrite length_app. simpl. lia.
    + simpl in *. lia.
Qed.

(** [merge] on a vector whose positions [left_ .. mid] hold [l1] and whose
    positions [mid + 1 .. right_] hold [l2]: the merge of the two lists is
    written there and nothing else changes. *)
Lemma merge_frame (pre l1 l2 post : list Course) (left_ mid right_ : Z) :
  left_ = Z.of_nat (length pre) →
  mid = Z.of_nat (length pre + length l1) - 1 →
  right_ = Z.of_nat (length pre + length l1 + length l2) - 1 →
  MergeSort.merge (pre ++ l1 ++ l2 ++ post) left_ mid right_
  = Some (pre ++ list_merge course_le l1 l2 ++ post).
Proof.
  intros Hl Hm Hr. unfold MergeSort.merge, MergeSort.vec_new.
  replace (mid - left_ + 1) with (Z.of_nat (length l1)) by lia.
  replace (right_ - mid) with (Z.of_nat (length l2)) by lia.
  rewrite !decide_True by lia. simpl. rewrite !Nat2Z.id.
  rewrite (copy_loop_frame l1 (pre ++ l1 ++ l2 ++ post) pre [] (l2 ++ post)
             (replicate (length l1) Course_default) []
             (replicate (length l1) Course_default)
             left_ (Z.of_nat (length l1)) 0);
    [|rewrite ?length_replicate; simpl; try done; lia..].
  simpl.
  rewrite (copy_loop_frame l2 (pre ++ l1 ++ l2 ++ post) (pre ++ l1) [] post
             (replicate (length l2) Course_default) []
             (replicate (length l2) Course_default)
             (mid + 1) (Z.of_nat (length l2)) 0);
    [|rewrite ?length_replicate, ?length_app; simpl; try done; try lia..].
  2:{ by rewrite <- app_assoc. }
  simpl.
  apply (merge_loops_frame l1 l2 l1 l2 [] [] _ pre (l1 ++ l2) post);
    rewrite ?length_app; simpl; try done; try lia.
  by rewrite <- app_assoc.
Qed.

(** ** mergeSort *)

Lemma StronglySorted_short (xs : list Course) :
  (length xs ≤ 1)%nat → StronglySorted course_le xs.
Proof.
  destruct xs as [|x [|y xs]]; simpl; intros H; [constructor| |lia].
  constructor; constructor.
Qed.

(** [mergeSort] on a vector whose positions [left_ .. right_] hold [xs]
    returns, writes there a sorted list [s] that is a stable rearrangement of
    [xs], is [xs] itself when [xs] is sorted, and changes nothing else. *)
Lemma mergeSort_frame (n : nat) :
  ∀ (xs pre post : list Course) (left_ right_ : Z),
    length xs = n →
    left_ = Z.of_nat (length pre) →
    right_ = Z.of_nat (length pre + length xs) - 1 →
    ∃ s,
      MergeSort.mergeSort (pre ++ xs ++ post) left_ right_ = Some (pre ++ s ++ post)
      ∧ s ≡ₚ xs
      ∧ StronglySorted course_le s
      ∧ (∀ x, with_number x s = with_number x xs)
      ∧ (StronglySorted course_le xs → s = xs).
Proof.
  induction (lt_wf n) as [n _ IH].
  intros xs pre post left_ right_ Hn Hl Hr.
  rewrite MergeSort.mergeSort_equation_1.
  destruct (decide (left_ < right_)) as [Hlt|Hge].
  2:{ exists xs. repeat split; try done. apply StronglySorted_short. lia. }
  cbv zeta.
  set (mid := left_ + (right_ - left_) ÷ 2).
  set (h := Z.to_nat ((right_ - left_) ÷ 2 + 1)).
  assert (Hh : (0 < h < length xs)%nat)
    by (subst h; Z.to_euclidean_division_equations; lia).
  assert (Hmid : mid = Z.of_nat (length pre + h) - 1)
    by (subst mid h; Z.to_euclidean_division_equations; lia).
  pose proof (take_drop h xs) as Hxs.
  pose proof (length_take_le xs h ltac:(lia)) as Hl1.
  pose proof (length_drop xs h) as Hl2.
  set (xs1 := take h xs) in *. set (xs2 := drop h xs) in *.
  destruct (IH (length xs1) ltac:(lia) xs1 pre (xs2 ++ post) left_ mid)
    as (s1 & E1 & P1 & S1 & F1 & I1); [done|done|lia|].
  pose proof (Permutation_length P1) as Hs1.
  destruct (IH (length xs2) ltac:(lia) xs2 (pre ++ s1) post (mid + 1) right_)
    as (s2 & E2 & P2 & S2 & F2 & I2);
    [done|rewrite length_app; lia|rewrite length_app; lia|].
  pose proof (Permutation_length P2) as Hs2.
  exists (list_merge course_le s1 s2).
  split; [|split; [|split; [|split]]].
  - replace (pre ++ xs ++ post) with (pre ++ xs1 ++ xs2 ++ post)
      by (by rewrite <- Hxs, <- app_assoc).
    rewrite E1. simpl.
    replace (pre ++ s1 ++ xs2 ++ post) with ((pre ++ s1) ++ xs2 ++ post)
      by (by rewrite <- app_assoc).
    rewrite E2. simpl. rewrite <- app_assoc.
    apply merge_frame; lia.
  - by rewrite merge_Permutation, P1, P2, Hxs.
  - apply Sorted_StronglySorted; [apply _|].
    apply Sorted_list_merge; [apply _|by apply StronglySorted_Sorted..].
  - intros x. rewrite with_number_list_merge by done.
    rewrite F1, F2, <- Hxs. unfold with_number. by rewrite filter_app.
  - intros Hs. rewrite <- Hxs in Hs.
    apply StronglySorted_app in Hs as Hs'. destruct Hs' as (_ & Hs1' & Hs2').
    rewrite (I1 Hs1'), (I2 Hs2'). by rewrite list_merge_sorted_app.
Qed.

(** The vector around the positions [left_ .. right_]. *)
Lemma slice_split (courses : list Course) (left_ right_ : Z) :
  0 ≤ left_ → left_ ≤ right_ + 1 → right_ < Z.of_nat (length courses) →
  courses = take (Z.to_nat left_) courses ++ slice courses left_ right_
              ++ drop (Z.to_nat (right_ + 1)) courses
  ∧ length (take (Z.to_nat left_) courses) = Z.to_nat left_
  ∧ length (slice courses left_ right_) = Z.to_nat (right_ - left_ + 1).
Proof.
  intros H0 Hle Hlt. unfold slice. repeat split.
  - rewrite <- (take_drop (Z.to_nat left_) courses) at 1. f_equal.
    rewrite <- (take_drop (Z.to_nat (right_ - left_ + 1))
                  (drop (Z.to_nat left_) courses)) at 1.
    f_equal. rewrite drop_drop. f_equal. lia.
  - rewrite length_take. lia.
  - rewrite length_take, length_drop. lia.
Qed.

(** [mergeSort] in terms of positions. *)
Lemma mergeSort_slice (courses : list Course) (left_ right_ : Z) :
  0 ≤ left_ → left_ ≤ right_ + 1 → right_ < Z.of_nat (length courses) →
  ∃ s,
    MergeSort.mergeSort courses left_ right_
      = Some (take (Z.to_nat left_) courses ++ s
                ++ drop (Z.to_nat (right_ + 1)) courses)
    ∧ s ≡ₚ slice courses left_ right_
    ∧ StronglySorted course_le s
    ∧ (∀ x, with_number x s = with_number x (slice courses left_ right_))
    ∧ (StronglySorted course_le (slice courses left_ right_) →
       s = slice courses left_ right_).
Proof.
  intros H0 Hle Hlt.
  destruct (slice_split courses left_ right_ H0 Hle Hlt) as (Hc & Hp & Hx).
  destruct (mergeSort_frame _ (slice courses left_ right_)
              (take (Z.to_nat left_) courses)
              (drop (Z.to_nat (right_ + 1)) courses) left_ right_ eq_refl)
    as (s & E & H); [lia|lia|].
  exists s. split; [|done]. by rewrite <- Hc in E.
Qed.

(** The sort of the whole vector, as [loadCoursesFile] runs it. *)
Lemma sort_courses_spec (courses : list Course) :
  ∃ sorted,
    sort_courses courses = Some sorted
    ∧ stable_sort_of courses sorted
    ∧ (StronglySorted course_le courses → sorted = courses).
Proof.
  destruct (mergeSort_slice courses 0 (Z.of_nat (length courses) - 1))
    as (s & E & P & S & F & I); [lia..|].
  assert (Hs : slice courses 0 (Z.of_nat (length courses) - 1) = courses).
  { unfold slice. rewrite Z2Nat.inj_0, drop_0. apply take_ge. lia. }
  rewrite Hs in *. exists s. unfold sort_courses. split; [|done].
  rewrite E, Z2Nat.inj_0. simpl. rewrite drop_ge by lia. by rewrite app_nil_r.
Qed.

(** What [mergeSort] over the whole vector returns is a permutation of it. *)
Lemma mergeSort_result_permutation (courses sorted : list Course) :
  MergeSort.mergeSort courses 0 (Z.of_nat (length courses) - 1) = Some sorted →
  sorted ≡ₚ courses.
Proof.
  intros Hsort.
  destruct (sort_courses_spec courses) as (sorted' & E & (P & _) & _).
  unfold sort_courses in E. by simplify_eq.
Qed.

(** C5. The sort returns for every vector of records; the result is in
    non-decreasing order of the identifiers compared byte by byte (every
    record is smaller than or equal to every later one), and for every
    identifier the records that carry it come in the order they had in the
    input. *)
Theorem mergeSort_sorted_and_stable (courses : list Course) :
  ∃ sorted,
    MergeSort.mergeSort courses 0 (Z.of_nat (length courses) - 1) = Some sorted
    ∧ StronglySorted course_le sorted
    ∧ Sorted course_le sorted
    ∧ ∀ x, with_number x sorted = with_number x courses.
Proof.
  destruct (sort_courses_spec courses) as (sorted & E & (P & S & F) & _).
  exists sorted. repeat split; try done. by apply StronglySorted_Sorted.
Qed.

(** C8. Sorting the result of the sort gives it back. *)
Theorem mergeSort_idempotent (S : list Course) :
  ∃ sorted,
    sort_courses S = Some sorted ∧ sort_courses sorted = Some sorted.
Proof.
  destruct (sort_courses_spec S) as (sorted & E & (_ & Hs & _) & _).
  exists sorted. split; [done|].
  destruct (sort_courses_spec sorted) as (sorted' & E' & _ & I).
  by rewrite E', (I Hs).
Qed.

(** C10. On a range inside the vector [mergeSort] returns a vector of the same
    length whose positions [left_ .. right_] hold a permutation of what they
    held, every other position holding what it held. *)
Theorem mergeSort_permutes_range (courses : list Course) (left_ right_ : Z) :
  0 ≤ left_ → left_ ≤ right_ → right_ < Z.of_nat (length courses) →
  ∃ courses',
    MergeSort.mergeSort courses left_ right_ = Some courses'
    ∧ length courses' = length courses
    ∧ slice courses' left_ right_ ≡ₚ slice courses left_ right_
    ∧ ∀ i : nat, (Z.of_nat i < left_ ∨ right_ < Z.of_nat i) →
        courses' !! i = courses !! i.
Proof.
  intros H0 Hle Hlt.
  destruct (mergeSort_slice courses left_ right_) as (s & E & P & _); [lia..|].
  destruct (slice_split courses left_ right_) as (Hc & Hp & Hx); [lia..|].
  pose proof (Permutation_length P) as Hs.
  eexists. split; [exact E|].
  assert (Hlen : length (take (Z.to_nat left_) courses ++ s
                          ++ drop (Z.to_nat (right_ + 1)) courses)
                 = length courses).
  { rewrite !length_app, Hs. rewrite Hc at 4. by rewrite !length_app. }
  split; [done|]. split.
  - unfold slice at 1. rewrite drop_app_length' by done.
    rewrite take_app_length' by lia. done.
  - intros i [Hi|Hi].
    + rewrite lookup_app_l by lia. apply lookup_take_lt. lia.
    + rewrite lookup_app_r by lia. rewrite lookup_app_r by lia.
      rewrite lookup_drop. f_equal. lia.
Qed.

Lemma mergeSort_permutes_range_witness :
  (0 ≤ 1 ∧ 1 ≤ 2 ∧ 2 < Z.of_nat (length example_records))
  ∧ ∃ courses',
      MergeSort.mergeSort example_records 1 2 = Some courses'
      ∧ length courses' = length example_records
      ∧ slice courses' 1 2 ≡ₚ slice example_records 1 2
      ∧ ∀ i : nat, (Z.of_nat i < 1 ∨ 2 < Z.of_nat i) →
          courses' !! i = example_records !! i.
Proof.
  split; [simpl; lia|].
  apply (mergeSort_permutes_range example_records 1 2); simpl; lia.
Defined.

(** The order is that of the bytes, not of the case-folded identifiers: the
    upper-case letters come before the lower-case ones. *)
Example order_is_ordinal :
  String.leb "CSCI400" "csci100" = true ∧ String.leb "csci100" "CSCI400" = false
  ∧ String.leb "CSCI10" "CSCI100" = true.
Proof. vm_compute. repeat split; reflexivity. Qed.

(** Two records of equal identifier keep their order, here behind a record
    that sorts before both. *)
Example sort_keeps_equal_identifiers_in_order :
  sort_courses
    [ mkCourse "CSCI200" "first" []; mkCourse "CSCI200" "second" [];
      mkCourse "CSCI100" "third" [] ]
  = Some [ mkCourse "CSCI100" "third" []; mkCourse "CSCI200" "first" [];
           mkCourse "CSCI200" "second" [] ].
Proof. vm_compute. reflexivity. Qed.

(** Loading the file of the README: the seven records come back in the order
    of their identifiers, the data is marked as loaded, and CSCI300 is found
    under any case with its two prerequisites as written. *)
Example load_example_file :
  ∃ sorted w,
    loadCoursesFile (Some example_file) example_globals
      = Some (sorted, w, SuccessfullyLoaded)
    ∧ courseNumber <$> sorted
      = [ "CSCI100"; "CSCI101"; "CSCI200"; "CSCI300"; "CSCI301"; "CSCI350";
          "CSCI400" ]%string
    ∧ dataLoaded w = true
    ∧ CourseHashTable.find (courseHashTable w) "csci300"
      = Some (mkCourse "CSCI300" "Introduction to Algorithms"
                ["CSCI200"; "MATH201"]%string).
Proof. vm_compute. eexists _, _. repeat split; reflexivity. Qed.


(** * More of the program *)

(** ** The course store: lookup, size and listing *)

(** X1. Looking up after an insert: an identifier equal up to case to the
    inserted one finds the inserted record, any other finds what it found. *)
Theorem find_insert (h : CourseHashTable.t) (course : Course) (X : string) :
  CourseHashTable.find (CourseHashTable.insert h course) X
  = if decide (toLower X = toLower (courseNumber course)) then Some course
    else CourseHashTable.find h X.
Proof.
  unfold CourseHashTable.find, CourseHashTable.insert. simpl.
  case_decide as H.
  - rewrite H. apply lookup_insert_eq.
  - by rewrite lookup_insert_ne.
Qed.

Lemma store_of_snoc (records : list Course) (course : Course) :
  store_of (records ++ [course]) = CourseHashTable.insert (store_of records) course.
Proof. unfold store_of. by rewrite foldl_app. Qed.

(** The map of a store built by inserts, key by key. *)
Lemma store_of_lookup (records : list Course) (k : string) :
  CourseHashTable.courseMap (store_of records) !! k
  = last (filter (λ c, toLower (courseNumber c) = k) records).
Proof.
  induction records as [|c records IH] using rev_ind; [done|].
  rewrite store_of_snoc, filter_app. simpl.
  rewrite filter_cons, filter_nil. case_decide as H.
  - rewrite last_snoc, H. apply lookup_insert_eq.
  - rewrite app_nil_r, lookup_insert_ne by done. apply IH.
Qed.

(** X2. After a sequence of records was ingested, a lookup returns the last
    record of the sequence whose identifier equals the one asked for up to
    case, and nothing when there is none. *)
Theorem find_store_of (records : list Course) (X : string) :
  CourseHashTable.find (store_of records) X
  = last (filter (λ c, toLower (courseNumber c) = toLower X) records).
Proof. unfold CourseHashTable.find. apply store_of_lookup. Qed.

(** X3. [empty], [size] and [getAllCourses] agree: the listing has [size]
    records, and the store is empty exactly when its size is zero, exactly
    when the listing is empty. *)
Theorem empty_size_getAllCourses (h : CourseHashTable.t) :
  length (CourseHashTable.getAllCourses h) = CourseHashTable.size h
  ∧ (CourseHashTable.empty h = true ↔ CourseHashTable.size h = 0%nat)
  ∧ (CourseHashTable.empty h = true ↔ CourseHashTable.getAllCourses h = []).
Proof.
  unfold CourseHashTable.getAllCourses, CourseHashTable.size, CourseHashTable.empty.
  rewrite bool_decide_eq_true, length_fmap, length_map_to_list.
  repeat split.
  - intros ->. apply map_size_empty.
  - apply map_size_empty_inv.
  - intros ->. by rewrite map_to_list_empty.
  - intros H. apply fmap_nil_inv in H. by apply map_to_list_empty_iff.
Qed.

(** The keys of a store built by inserts: the case-folded identifiers. *)
Lemma store_of_dom (records : list Course) :
  dom (CourseHashTable.courseMap (store_of records))
  = list_to_set ((λ c, toLower (courseNumber c)) <$> records).
Proof.
  induction records as [|c records IH] using rev_ind; [set_solver|].
  rewrite store_of_snoc, fmap_app, list_to_set_app_L. simpl.
  rewrite dom_insert_L, IH. set_solver.
Qed.

Lemma length_remove_dups_le {A} `{EqDecision A} (l : list A) :
  (length (remove_dups l) ≤ length l)%nat.
Proof. induction l as [|x l IH]; simpl; [done|]. case_decide; simpl; lia. Qed.

(** X4. The size of the store after a sequence of records was ingested is the
    number of identifiers that differ after case folding; it is at most the
    number of records. *)
Theorem size_store_of (records : list Course) :
  CourseHashTable.size (store_of records)
  = length (remove_dups ((λ c, toLower (courseNumber c)) <$> records))
  ∧ (CourseHashTable.size (store_of records) ≤ length records)%nat.
Proof.
  assert (E : CourseHashTable.size (store_of records)
              = length (remove_dups ((λ c, toLower (courseNumber c)) <$> records))).
  { unfold CourseHashTable.size. rewrite <- size_dom, store_of_dom.
    rewrite <- (size_list_to_set (C := gset string)) by apply NoDup_remove_dups.
    f_equal. apply set_eq. intros x.
    by rewrite !elem_of_list_to_set, elem_of_remove_dups. }
  split; [done|]. rewrite E.
  etrans; [apply length_remove_dups_le|]. by rewrite length_fmap.
Qed.

(** X5. The listing of a store built by inserts holds no two records whose
    identifiers are equal up to case, and it holds a record exactly when
    looking its identifier up finds that record. *)
Theorem getAllCourses_store_of (records : list Course) :
  NoDup ((λ c, toLower (courseNumber c))
           <$> CourseHashTable.getAllCourses (store_of records))
  ∧ ∀ c, c ∈ CourseHashTable.getAllCourses (store_of records)
         ↔ CourseHashTable.find (store_of records) (courseNumber c) = Some c.
Proof.
  assert (Hkey : ∀ k c, CourseHashTable.courseMap (store_of records) !! k = Some c →
            toLower (courseNumber c) = k).
  { intros k c. rewrite store_of_lookup. intros H%last_Some_elem_of.
    by apply list_elem_of_filter in H as [H _]. }
  unfold CourseHashTable.getAllCourses, CourseHashTable.find. split.
  - rewrite <- list_fmap_compose.
    erewrite (list_fmap_ext _ fst); [apply NoDup_fst_map_to_list|].
    intros i [k c] Hi. simpl. apply Hkey.
    apply list_elem_of_lookup_2 in Hi. by apply elem_of_map_to_list in Hi.
  - intros c. rewrite list_elem_of_fmap. split.
    + intros ([k c'] & -> & Hin). simpl.
      apply elem_of_map_to_list in Hin. by rewrite (Hkey _ _ Hin).
    + intros H. exists (toLower (courseNumber c), c). split; [done|].
      by apply elem_of_map_to_list.
Qed.


(** ** The prerequisite graph: what [addCourse] builds *)

Lemma filter_eq_nil_not_elem (p : string) (l : list string) :
  p ∉ l → filter (λ x, x = p) l = [].
Proof.
  intros Hp. apply elem_of_nil_inv. intros x [-> Hin]%list_elem_of_filter. done.
Qed.

Lemma filter_eq_elem_length (p : string) (l : list string) :
  p ∈ l → (0 < length (filter (λ x, x = p) l))%nat.
Proof.
  intros Hp. assert (p ∈ filter (λ x, x = p) l) as Hin
    by by apply list_elem_of_filter.
  destruct (filter _ l); [by apply elem_of_nil in Hin|simpl; lia].
Qed.

(** The reverse list of [p] after the loop of [addCourse]: [courseKey] is
    appended once for each time [p] stands in the prerequisites. *)
Lemma addCourse_loop_reverse (courseKey : string) (prereqs : list string)
    (g0 : PrerequisiteGraph.t) (p : string) :
  PrerequisiteGraph.reverseList
    (foldl (PrerequisiteGraph.addCourse_step courseKey) g0 prereqs) !! p
  = if decide (p ∈ prereqs)
    then Some (default [] (PrerequisiteGraph.reverseList g0 !! p)
                 ++ replicate (length (filter (λ x, x = p) prereqs)) courseKey)
    else PrerequisiteGraph.reverseList g0 !! p.
Proof.
  induction prereqs as [|x ps IH] using rev_ind.
  - rewrite decide_False by apply not_elem_of_nil. done.
  - rewrite foldl_app. simpl. rewrite push_back_at_lookup, filter_app, length_app.
    destruct (decide (x = p)) as [->|Hne]; rewrite IH.
    + rewrite (decide_True (P := p ∈ ps ++ [p])) by set_solver.
      rewrite filter_cons_True, filter_nil by done. simpl.
      rewrite replicate_add. simpl. rewrite app_assoc. do 2 f_equal.
      case_decide as Hin; [done|].
      by rewrite filter_eq_nil_not_elem, app_nil_r.
    + rewrite filter_cons_False, filter_nil by done. simpl. rewrite Nat.add_0_r.
      case_decide as Hin.
      * by rewrite (decide_True (P := p ∈ ps ++ [x])) by set_solver.
      * by rewrite (decide_False (P := p ∈ ps ++ [x])) by set_solver.
Qed.

Lemma addCourse_adjacency (g : PrerequisiteGraph.t) (course : Course) :
  PrerequisiteGraph.adjacencyList (PrerequisiteGraph.addCourse g course)
  = <[toLower (courseNumber course) := toLower <$> prerequisites course]>
      (PrerequisiteGraph.adjacencyList g).
Proof.
  unfold PrerequisiteGraph.addCourse.
  rewrite (addCourse_loop_adjacency _ _ _ []); simpl.
  - by rewrite insert_insert_eq.
  - by rewrite lookup_insert_eq.
Qed.

Lemma addCourse_reverse (g : PrerequisiteGraph.t) (course : Course) (p : string) :
  PrerequisiteGraph.reverseList (PrerequisiteGraph.addCourse g course) !! p
  = if decide (p ∈ prerequisites course)
    then Some (default [] (PrerequisiteGraph.reverseList g !! p)
                 ++ replicate (length (filter (λ x, x = p) (prerequisites course)))
                      (toLower (courseNumber course)))
    else PrerequisiteGraph.reverseList g !! p.
Proof. unfold PrerequisiteGraph.addCourse. by rewrite addCourse_loop_reverse. Qed.

(** X6. What [addCourse] does to the two maps: the forward entry of the
    lower-case identifier becomes the lower-case prerequisites, whatever it
    was, and no other forward entry changes; the reverse list under [p] gets
    the lower-case identifier appended once for each time the record names
    [p], and is as before when the record does not name [p]. *)
Theorem addCourse_maps (g : PrerequisiteGraph.t) (course : Course) (p : string) :
  PrerequisiteGraph.adjacencyList (PrerequisiteGraph.addCourse g course)
  = <[toLower (courseNumber course) := toLower <$> prerequisites course]>
      (PrerequisiteGraph.adjacencyList g)
  ∧ PrerequisiteGraph.reverseList (PrerequisiteGraph.addCourse g course) !! p
    = if decide (p ∈ prerequisites course)
      then Some (default [] (PrerequisiteGraph.reverseList g !! p)
                   ++ replicate
                        (length (filter (λ x, x = p) (prerequisites course)))
                        (toLower (courseNumber course)))
      else PrerequisiteGraph.reverseList g !! p.
Proof. split; [apply addCourse_adjacency|apply addCourse_reverse]. Qed.

(** X7. Asking for the prerequisites of a course that was just added, under
    any spelling of its identifier, returns its prerequisites in lower case
    and leaves the graph as it is. *)
Theorem getPrerequisites_addCourse
    (g : PrerequisiteGraph.t) (course : Course) (X : string) :
  toLower X = toLower (courseNumber course) →
  PrerequisiteGraph.getPrerequisites (PrerequisiteGraph.addCourse g course) X
  = (toLower <$> prerequisites course, PrerequisiteGraph.addCourse g course).
Proof.
  intros HX. unfold PrerequisiteGraph.getPrerequisites, subscript.
  rewrite HX, addCourse_adjacency, lookup_insert_eq.
  f_equal. rewrite <- addCourse_adjacency.
  by destruct (PrerequisiteGraph.addCourse g course).
Qed.

Lemma getPrerequisites_addCourse_witness :
  toLower "csci300" = toLower "CSCI300"
  ∧ PrerequisiteGraph.getPrerequisites
      (PrerequisiteGraph.addCourse PrerequisiteGraph.new
         (mkCourse "CSCI300" "Introduction to Algorithms" ["CSCI200"; "MATH201"]%string))
      "csci300"
    = (["csci200"; "math201"]%string,
       PrerequisiteGraph.addCourse PrerequisiteGraph.new
         (mkCourse "CSCI300" "Introduction to Algorithms" ["CSCI200"; "MATH201"]%string)).
Proof.
  split; [reflexivity|].
  apply (getPrerequisites_addCourse PrerequisiteGraph.new
           (mkCourse "CSCI300" "Introduction to Algorithms"
              ["CSCI200"; "MATH201"]%string) "csci300").
  reflexivity.
Defined.

(** X8. [addCourse] is not idempotent: adding a record that has
    prerequisites a second time leaves the forward map as after the first
    time and gives another graph, each reverse list of a prerequisite
    holding the identifier once more for each mention. *)
Theorem addCourse_twice (g : PrerequisiteGraph.t) (course : Course) :
  prerequisites course ≠ [] →
  let g1 := PrerequisiteGraph.addCourse g course in
  let g2 := PrerequisiteGraph.addCourse g1 course in
  PrerequisiteGraph.adjacencyList g2 = PrerequisiteGraph.adjacencyList g1
  ∧ g2 ≠ g1
  ∧ ∀ p, p ∈ prerequisites course →
      ∃ l1, PrerequisiteGraph.reverseList g1 !! p = Some l1
            ∧ PrerequisiteGraph.reverseList g2 !! p
              = Some (l1 ++ replicate
                              (length (filter (λ x, x = p) (prerequisites course)))
                              (toLower (courseNumber course))).
Proof.
  intros Hne g1 g2. subst g1 g2.
  assert (Hrev : ∀ p, p ∈ prerequisites course →
    ∃ l1, PrerequisiteGraph.reverseList (PrerequisiteGraph.addCourse g course) !! p
          = Some l1
      ∧ PrerequisiteGraph.reverseList
          (PrerequisiteGraph.addCourse (PrerequisiteGraph.addCourse g course) course)
          !! p
        = Some (l1 ++ replicate
                        (length (filter (λ x, x = p) (prerequisites course)))
                        (toLower (courseNumber course)))).
  { intros p Hp. rewrite (addCourse_reverse (PrerequisiteGraph.addCourse g course)).
    rewrite addCourse_reverse, !decide_True by done. simpl. eauto. }
  split; [|split; [|done]].
  - by rewrite !addCourse_adjacency, insert_insert_eq.
  - destruct (prerequisites course) as [|p ps] eqn:E; [done|].
    destruct (Hrev p) as (l1 & H1 & H2); [set_solver|].
    intros Heq. rewrite Heq, H1 in H2.
    assert (Hl := f_equal length (Some_inj _ _ H2)).
    rewrite length_app, length_replicate in Hl.
    assert (Hpos := filter_eq_elem_length p (p :: ps) ltac:(set_solver)). lia.
Qed.

Lemma addCourse_twice_witness :
  ["CSCI101"%string] ≠ []
  ∧ PrerequisiteGraph.addCourse
      (PrerequisiteGraph.addCourse PrerequisiteGraph.new
         (mkCourse "CSCI200" "Data Structures" ["CSCI101"%string]))
      (mkCourse "CSCI200" "Data Structures" ["CSCI101"%string])
    ≠ PrerequisiteGraph.addCourse PrerequisiteGraph.new
        (mkCourse "CSCI200" "Data Structures" ["CSCI101"%string]).
Proof.
  split; [done|].
  apply (addCourse_twice PrerequisiteGraph.new
           (mkCourse "CSCI200" "Data Structures" ["CSCI101"%string])).
  done.
Defined.


(** ** The prerequisite graph: what the traversal returns *)

Lemma bfs_inv_forward (adj0 : gmap string (list string)) (courseKey : string)
    (st : PrerequisiteGraph.bfs) (k : string) :
  bfs_inv adj0 courseKey st → forward (PrerequisiteGraph.adj st) k = forward adj0 k.
Proof.
  intros [Hadj _]. unfold forward. rewrite Hadj.
  destruct (adj0 !! k); [done|]. by destruct (seen _ k).
Qed.

(** One turn of the loop, in terms of the queue, the result and what is
    visited. *)
Lemma bfs_body_cases (reverseList : gmap string (list string))
    (courseKey current : string) (rest : list string) (st : PrerequisiteGraph.bfs) :
  let st' := PrerequisiteGraph.bfs_body reverseList courseKey current rest st in
  if seen (PrerequisiteGraph.visited st) current then
    PrerequisiteGraph.q st' = rest
    ∧ PrerequisiteGraph.available st' = PrerequisiteGraph.available st
    ∧ ∀ k, seen (PrerequisiteGraph.visited st') k
           = seen (PrerequisiteGraph.visited st) k
  else
    (∀ k, seen (PrerequisiteGraph.visited st') k
          = if decide (current = k) then true
            else seen (PrerequisiteGraph.visited st) k)
    ∧ if decide (Forall (λ prereq, toLower prereq = courseKey)
                   (forward (PrerequisiteGraph.adj st) current))
      then
        PrerequisiteGraph.available st' = PrerequisiteGraph.available st ++ [current]
        ∧ PrerequisiteGraph.q st'
          = rest ++ filter (λ next, next ≠ current
                                    ∧ seen (PrerequisiteGraph.visited st) next = false)
                      (default [] (reverseList !! current))
      else
        PrerequisiteGraph.available st' = PrerequisiteGraph.available st
        ∧ PrerequisiteGraph.q st' = rest.
Proof.
  unfold PrerequisiteGraph.bfs_body.
  destruct (subscript_seen current (PrerequisiteGraph.visited st)) as [Hb Hv].
  destruct (subscript false current (PrerequisiteGraph.visited st)) as [b v1].
  simpl in Hb, Hv. subst b.
  destruct (seen (PrerequisiteGraph.visited st) current) eqn:Hseen; simpl; [done|].
  destruct (subscript_spec [] current (PrerequisiteGraph.adj st)) as [Hp _].
  destruct (subscript [] current (PrerequisiteGraph.adj st)) as [prereqs adj'].
  simpl in Hp. fold (forward (PrerequisiteGraph.adj st) current) in Hp.
  subst prereqs.
  assert (Hmark : ∀ v', (∀ k, seen v' k = seen (<[current:=true]> v1) k) →
            ∀ k, seen v' k = if decide (current = k) then true
                             else seen (PrerequisiteGraph.visited st) k).
  { intros v' Hv' k. by rewrite Hv', seen_mark, Hv. }
  case_decide as Hall.
  - assert (forallb (λ prereq, bool_decide (toLower prereq = courseKey))
              (forward (PrerequisiteGraph.adj st) current) = true) as ->.
    { apply forallb_forall. intros p Hin%list_elem_of_In.
      apply bool_decide_eq_true. rewrite Forall_forall in Hall. by apply Hall. }
    destruct (reverseList !! current) as [nexts|] eqn:Hrev; simpl.
    + pose proof (enqueue_loop_queue nexts rest (<[current:=true]> v1)) as Hq.
      destruct (enqueue_loop nexts rest (<[current:=true]> v1)) as [_ Hs].
      destruct (foldl PrerequisiteGraph.enqueue_step _ nexts) as [q' v'].
      simpl in *. split; [by apply Hmark|]. split; [done|].
      rewrite Hq. f_equal. apply list_filter_iff. intros next.
      rewrite seen_mark, Hv. case_decide; naive_solver.
    + split; [by apply Hmark|]. by rewrite filter_nil, app_nil_r.
  - assert (forallb (λ prereq, bool_decide (toLower prereq = courseKey))
              (forward (PrerequisiteGraph.adj st) current) = false) as ->.
    { apply not_true_is_false. intros Hfb. apply Hall, Forall_forall.
      intros p Hin%list_elem_of_In. rewrite forallb_forall in Hfb.
      specialize (Hfb p Hin). by apply bool_decide_eq_true in Hfb. }
    split; [by apply Hmark|done].
Qed.

Lemma candidate_mono (g : PrerequisiteGraph.t) (courseKey : string)
    (available available' : list string) (d : string) :
  (∀ c, c ∈ available → c ∈ available') →
  candidate g courseKey available d → candidate g courseKey available' d.
Proof.
  intros Hsub (c & deps & Hc & Hrev & Hd). exists c, deps. naive_solver.
Qed.

(** Each turn of the loop keeps [bfs_reach]. *)
Lemma bfs_body_reach (g : PrerequisiteGraph.t) (courseKey current : string)
    (rest : list string) (st : PrerequisiteGraph.bfs) :
  bfs_inv (PrerequisiteGraph.adjacencyList g) courseKey st →
  PrerequisiteGraph.q st = current :: rest →
  bfs_reach g courseKey st →
  bfs_reach g courseKey
    (PrerequisiteGraph.bfs_body (PrerequisiteGraph.reverseList g)
       courseKey current rest st).
Proof.
  intros Hinv Hq (Hnd & Hav & Hseen & Hqc & Hcq).
  pose proof (bfs_body_cases (PrerequisiteGraph.reverseList g)
                courseKey current rest st) as Hc.
  rewrite Hq in Hqc, Hcq.
  set (st' := PrerequisiteGraph.bfs_body _ _ _ _ _) in *. simpl in Hc.
  destruct (seen (PrerequisiteGraph.visited st) current) eqn:Hcur.
  { destruct Hc as (Hq' & Ha' & Hv'). unfold bfs_reach.
    rewrite Hq', Ha'. repeat split.
    - done.
    - rewrite Hv'. by apply Hav.
    - by apply Hav.
    - intros d. rewrite Hv'. apply Hseen.
    - intros d Hd. apply Hqc. set_solver.
    - intros d Hd. rewrite Hv'.
      destruct (Hcq d Hd) as [[->|Hin]%elem_of_cons|Hs]; auto. }
  destruct Hc as (Hv' & Hc).
  assert (Hold : ∀ d, seen (PrerequisiteGraph.visited st) d = true →
            seen (PrerequisiteGraph.visited st') d = true).
  { intros d Hd. rewrite Hv'. by destruct (decide (current = d)). }
  rewrite (bfs_inv_forward _ _ _ _ Hinv) in Hc.
  fold (qualifies g courseKey current) in Hc.
  case_decide as Hqual.
  - destruct Hc as (Ha' & Hq'). unfold bfs_reach. rewrite Hq', Ha'.
    assert (Hnew : current ∉ PrerequisiteGraph.available st).
    { intros Hin. apply Hav in Hin as [Hin _]. congruence. }
    assert (Hunl : unlocks g courseKey current).
    { destruct (Hqc current) as (c & deps & [->|Hc] & Hrev & Hd); [set_solver|..].
      - by eapply unlocks_direct.
      - eapply unlocks_next; [|done..]. by apply Hav. }
    repeat split.
    + apply NoDup_app. repeat split; [done| |apply NoDup_singleton].
      intros x Hx ->%list_elem_of_singleton. done.
    + apply elem_of_app in H as [Hd| ->%list_elem_of_singleton].
      * apply Hold. by apply Hav.
      * rewrite Hv'. by rewrite decide_True.
    + apply elem_of_app in H as [Hd| ->%list_elem_of_singleton]; [by apply Hav|done].
    + intros d Hd Hqd. rewrite Hv' in Hd. apply elem_of_app.
      destruct (decide (current = d)) as [<-|Hne];
        [right; apply list_elem_of_here|left; by apply Hseen].
    + intros d [Hd|Hd]%elem_of_app.
      * eapply candidate_mono; [|apply Hqc; set_solver]. set_solver.
      * apply list_elem_of_filter in Hd as [_ Hd].
        destruct (PrerequisiteGraph.reverseList g !! current) as [deps|] eqn:Hrev;
          simpl in Hd; [|by apply elem_of_nil in Hd].
        exists current, deps. set_solver.
    + intros d (c & deps & Hc & Hrev & Hd).
      rewrite Hv'. destruct (decide (current = d)) as [->|Hne]; [by right|].
      destruct (seen (PrerequisiteGraph.visited st) d) eqn:Hsd; [by right|]. left.
      apply elem_of_app.
      destruct Hc as [->|[Hc| ->%list_elem_of_singleton]%elem_of_app].
      * destruct (Hcq d) as [Hin|Hs]; [exists courseKey, deps; auto| |congruence].
        left. set_solver.
      * destruct (Hcq d) as [Hin|Hs]; [exists c, deps; auto| |congruence].
        left. set_solver.
      * right. rewrite Hrev. simpl. apply list_elem_of_filter. split; [|done].
        split; [congruence|done].
  - destruct Hc as (Ha' & Hq'). unfold bfs_reach. rewrite Hq', Ha'.
    repeat split.
    + done.
    + apply Hold. by apply Hav.
    + by apply Hav.
    + intros d Hd Hqd. rewrite Hv' in Hd.
      destruct (decide (current = d)) as [<-|Hne]; [done|by apply Hseen].
    + intros d Hd. apply Hqc. set_solver.
    + intros d Hd. rewrite Hv'.
      destruct (Hcq d Hd) as [[->|Hin]%elem_of_cons|Hs].
      * right. by rewrite decide_True.
      * by left.
      * right. by case_decide.
Qed.

(** [findAvailableCourses] returns exactly the courses that [unlocks] holds
    of, none of them twice. *)
Lemma findAvailableCourses_reach (g : PrerequisiteGraph.t) (completedCourse : string) :
  ∃ (available : list string) (g' : PrerequisiteGraph.t),
    PrerequisiteGraph.findAvailableCourses g completedCourse = Some (available, g')
    ∧ NoDup available
    ∧ ∀ d, d ∈ available ↔ unlocks g (toLower completedCourse) d.
Proof.
  pose proof (findAvailableCourses_spec g completedCourse) as H.
  destruct (PrerequisiteGraph.reverseList g !! toLower completedCourse)
    as [dependents|] eqn:Hrev.
  - destruct H as (st & Hloop & Heq & Hinv).
    eexists _, _. split; [exact Heq|].
    edestruct (bfs_loop_ind
      (λ st, bfs_inv (PrerequisiteGraph.adjacencyList g) (toLower completedCourse) st
             ∧ bfs_reach g (toLower completedCourse) st))
      as [[_ (Hnd & Hav & Hseen & _ & Hcq)] Hq]; [| |exact Hloop|].
    + intros st1 current rest Hq1 [Hi Hr]. split.
      * by apply bfs_body_inv.
      * by apply bfs_body_reach.
    + split.
      * split; simpl.
        -- intros k. unfold seen. rewrite lookup_empty. simpl.
           by destruct (PrerequisiteGraph.adjacencyList g !! k).
        -- intros d Hd. by apply elem_of_nil in Hd.
      * unfold bfs_reach. simpl. repeat split.
        -- apply NoDup_nil_2.
        -- by apply elem_of_nil in H.
        -- by apply elem_of_nil in H.
        -- intros d Hd. unfold seen in Hd. by rewrite lookup_empty in Hd.
        -- intros d Hd. exists (toLower completedCourse), dependents. auto.
        -- intros d (c & deps & [->|Hc] & Hr & Hd); [|by apply elem_of_nil in Hc].
           left. by simplify_eq.
    + split; [done|]. intros d. split; [intros Hd; by apply Hav|].
      rewrite Hq in Hcq.
      assert (Hdone : ∀ d, candidate g (toLower completedCourse)
                             (PrerequisiteGraph.available st) d →
                seen (PrerequisiteGraph.visited st) d = true).
      { intros d' Hd'. destruct (Hcq d' Hd') as [Hin|Hs]; [|done].
        by apply elem_of_nil in Hin. }
      induction 1 as [deps d Hr Hd Hqd|c deps d Hc IH Hr Hd Hqd].
      * apply Hseen; [|done]. apply Hdone. exists (toLower completedCourse), deps. auto.
      * apply Hseen; [|done]. apply Hdone. exists c, deps. auto.
  - exists [], g. split; [done|]. split; [apply NoDup_nil_2|].
    intros d. split; [by intros Hd%elem_of_nil|].
    induction 1 as [deps d Hr Hd Hqd|c deps d Hc IH Hr Hd Hqd].
    + congruence.
    + by apply elem_of_nil in IH.
Qed.




(** X9. [findAvailableCourses] returns no course twice, and it returns a
    course exactly when the course qualifies (every entry of its forward list
    folds to the completed identifier) and is reached from the completed
    course along reverse lists through courses that qualify. *)
Theorem findAvailableCourses_unlocks
    (g : PrerequisiteGraph.t) (completedCourse : string) :
  ∃ (available : list string) (g' : PrerequisiteGraph.t),
    PrerequisiteGraph.findAvailableCourses g completedCourse = Some (available, g')
    ∧ NoDup available
    ∧ ∀ d, d ∈ available ↔ unlocks g (toLower completedCourse) d.
Proof. apply findAvailableCourses_reach. Qed.


(** ** The graph of a catalog *)

Lemma graph_of_snoc (records : list Course) (course : Course) :
  graph_of (records ++ [course])
  = PrerequisiteGraph.addCourse (graph_of records) course.
Proof. unfold graph_of. by rewrite foldl_app. Qed.

Lemma mentions_snoc (p : string) (records : list Course) (course : Course) :
  mentions p (records ++ [course])
  = mentions p records
    ++ replicate (length (filter (λ x, x = p) (prerequisites course)))
         (toLower (courseNumber course)).
Proof. unfold mentions. rewrite flat_map_app. simpl. by rewrite app_nil_r. Qed.

(** The reverse list of [p] in the graph of a catalog. *)
Lemma graph_of_reverse (records : list Course) (p : string) :
  PrerequisiteGraph.reverseList (graph_of records) !! p
  = if decide (mentions p records = []) then None else Some (mentions p records).
Proof.
  induction records as [|c records IH] using rev_ind; [done|].
  rewrite graph_of_snoc, addCourse_reverse, mentions_snoc, IH.
  destruct (decide (p ∈ prerequisites c)) as [Hin|Hin].
  - pose proof (filter_eq_elem_length p _ Hin) as Hpos.
    destruct (length (filter (λ x, x = p) (prerequisites c))) as [|n]; [lia|].
    rewrite (decide_False (P := mentions p records ++ _ = []))
      by (intros [_ H]%app_eq_nil; done).
    by destruct (decide (mentions p records = [])) as [->|].
  - rewrite filter_eq_nil_not_elem by done. simpl. by rewrite app_nil_r.
Qed.

(** The forward list of [k] in the graph of a catalog. *)
Lemma graph_of_forward (records : list Course) (k : string) :
  PrerequisiteGraph.adjacencyList (graph_of records) !! k
  = (λ c, toLower <$> prerequisites c)
      <$> last (filter (λ c, toLower (courseNumber c) = k) records).
Proof.
  induction records as [|c records IH] using rev_ind; [done|].
  rewrite graph_of_snoc, addCourse_adjacency, filter_app.
  rewrite filter_cons, filter_nil. case_decide as H.
  - rewrite last_snoc, H. simpl. apply lookup_insert_eq.
  - rewrite app_nil_r, lookup_insert_ne by done. apply IH.
Qed.

(** X10. The two maps of the graph that the records of a catalog build.  The
    forward list of a key is the lower-case prerequisite list of the last
    record whose identifier folds to the key.  The reverse list of [p] holds
    the lower-case identifiers of the records that name [p] in the very
    spelling [p], in the order of the records and once for each mention;
    there is no reverse entry for a spelling that no record uses. *)
Theorem graph_of_maps (records : list Course) (k p : string) :
  PrerequisiteGraph.adjacencyList (graph_of records) !! k
  = (λ c, toLower <$> prerequisites c)
      <$> last (filter (λ c, toLower (courseNumber c) = k) records)
  ∧ PrerequisiteGraph.reverseList (graph_of records) !! p
    = if decide (mentions p records = []) then None
      else Some (mentions p records).
Proof. split; [apply graph_of_forward|apply graph_of_reverse]. Qed.

Lemma mentions_nil (p : string) (records : list Course) :
  Forall (λ c, p ∉ prerequisites c) records → mentions p records = [].
Proof.
  unfold mentions. induction 1 as [|c records Hc _ IH]; [done|].
  simpl. by rewrite IH, filter_eq_nil_not_elem.
Qed.

(** X11. In a catalog whose records write every prerequisite with a letter in
    upper case, as the shipped [courses.txt] does, [findAvailableCourses]
    returns no course for any completed course, and leaves the graph as it
    is: the dependents are stored under the spelling of the record and looked
    up under the lower-case one. *)
Theorem upper_case_catalog_unlocks_nothing
    (records : list Course) (completedCourse : string) :
  Forall (λ c, Forall (λ p, toLower p ≠ p) (prerequisites c)) records →
  PrerequisiteGraph.findAvailableCourses (graph_of records) completedCourse
  = Some ([], graph_of records).
Proof.
  intros Hup. unfold PrerequisiteGraph.findAvailableCourses.
  rewrite graph_of_reverse, mentions_nil; [done|].
  eapply Forall_impl; [exact Hup|]. intros c Hc Hin. simpl in Hc.
  rewrite Forall_forall in Hc. apply (Hc _ Hin), toLower_toLower.
Qed.

Lemma upper_case_catalog_unlocks_nothing_witness :
  Forall (λ c, Forall (λ p, toLower p ≠ p) (prerequisites c)) example_records
  ∧ PrerequisiteGraph.findAvailableCourses (graph_of example_records) "CSCI300"
    = Some ([], graph_of example_records).
Proof.
  assert (H : Forall (λ c, Forall (λ p, toLower p ≠ p) (prerequisites c))
                example_records)
    by (repeat constructor; discriminate).
  split; [exact H|].
  apply (upper_case_catalog_unlocks_nothing example_records "CSCI300"). exact H.
Defined.


(** ** merge *)

(** A range splits at [mid] into its two halves. *)
Lemma slice_halves (courses : list Course) (left_ mid right_ : Z) :
  0 ≤ left_ → left_ ≤ mid + 1 → mid ≤ right_ →
  slice courses left_ right_
  = slice courses left_ mid ++ slice courses (mid + 1) right_.
Proof.
  intros H0 H1 H2. unfold slice.
  replace (Z.to_nat (right_ - left_ + 1))
    with (Z.to_nat (mid - left_ + 1) + Z.to_nat (right_ - (mid + 1) + 1))%nat by lia.
  rewrite <- take_take_drop, drop_drop. do 3 f_equal. lia.
Qed.

(** X12. [merge] on a range inside the vector, split at [mid] into two halves
    either of which may be empty: it returns, the range afterwards is a
    permutation of the range before and everything around it is kept; when
    the two halves are sorted, the range afterwards is sorted, and the records
    of equal identifier are in the order they had. *)
Theorem merge_sorted_halves (courses : list Course) (left_ mid right_ : Z) :
  0 ≤ left_ → left_ ≤ mid + 1 → mid ≤ right_ →
  right_ < Z.of_nat (length courses) →
  ∃ merged,
    MergeSort.merge courses left_ mid right_
      = Some (take (Z.to_nat left_) courses ++ merged
                ++ drop (Z.to_nat (right_ + 1)) courses)
    ∧ merged ≡ₚ slice courses left_ right_
    ∧ (Sorted course_le (slice courses left_ mid) →
       Sorted course_le (slice courses (mid + 1) right_) →
       Sorted course_le merged
       ∧ ∀ x, with_number x merged = with_number x (slice courses left_ right_)).
Proof.
  intros H0 H1 H2 H3.
  destruct (slice_split courses left_ right_) as (Hc & Hp & Hx); [lia..|].
  pose proof (slice_halves courses left_ mid right_ H0 H1 H2) as Hh.
  set (l1 := slice courses left_ mid) in *.
  set (l2 := slice courses (mid + 1) right_) in *.
  assert (Hl1 : length l1 = Z.to_nat (mid - left_ + 1)).
  { subst l1. unfold slice. rewrite length_take, length_drop. lia. }
  assert (Hl2 : length l2 = Z.to_nat (right_ - mid)).
  { subst l2. unfold slice. rewrite length_take, length_drop. lia. }
  exists (list_merge course_le l1 l2). split; [|split].
  - rewrite Hc at 1. rewrite Hh, <- app_assoc. apply merge_frame; lia.
  - by rewrite merge_Permutation, Hh.
  - intros S1 S2. split.
    + apply Sorted_list_merge; [apply _|done..].
    + intros x. rewrite with_number_list_merge
        by (apply Sorted_StronglySorted; [apply _|done]).
      rewrite Hh. unfold with_number. by rewrite filter_app.
Qed.

Lemma merge_sorted_halves_witness :
  (0 ≤ 0 ∧ 0 ≤ 0 + 1 ∧ 0 ≤ 1 ∧ 1 < Z.of_nat (length (rev example_records)))
  ∧ ∃ merged,
      MergeSort.merge (rev example_records) 0 0 1
        = Some (take (Z.to_nat 0) (rev example_records) ++ merged
                  ++ drop (Z.to_nat (1 + 1)) (rev example_records))
      ∧ merged ≡ₚ slice (rev example_records) 0 1.
Proof.
  split; [simpl; lia|].
  destruct (merge_sorted_halves (rev example_records) 0 0 1) as (merged & E & P & _);
    [simpl; lia..|].
  exists merged. by split.
Defined.

(** ** The order of the listing *)

Lemma NoDup_fmap_eq {A B} (f : A → B) (l : list A) (x y : A) :
  NoDup (f <$> l) → x ∈ l → y ∈ l → f x = f y → x = y.
Proof.
  induction l as [|a l IH]; simpl; intros Hnd Hx Hy Hf.
  - by apply elem_of_nil in Hx.
  - apply NoDup_cons in Hnd as [Ha Hnd].
    apply elem_of_cons in Hx as [->|Hx]; apply elem_of_cons in Hy as [->|Hy].
    + done.
    + exfalso. apply Ha. rewrite Hf. by apply list_elem_of_fmap_2.
    + exfalso. apply Ha. rewrite <- Hf. by apply list_elem_of_fmap_2.
    + by apply IH.
Qed.

(** X13. When no two records carry the same identifier, the sorted vector
    does not depend on the order of the input: any two arrangements of the
    records sort to the same vector. *)
Theorem sort_order_independent (courses1 courses2 : list Course) :
  NoDup (courseNumber <$> courses1) →
  courses1 ≡ₚ courses2 →
  sort_courses courses1 = sort_courses courses2.
Proof.
  intros Hnd Hp.
  destruct (sort_courses_spec courses1) as (s1 & E1 & (P1 & S1 & _) & _).
  destruct (sort_courses_spec courses2) as (s2 & E2 & (P2 & S2 & _) & _).
  rewrite E1, E2. f_equal.
  apply (StronglySorted_unique_strong course_le); [|done|done|].
  - intros x1 x2 Hx1 Hx2 H12 H21.
    apply (NoDup_fmap_eq courseNumber courses1); [done|..].
    + by rewrite <- P1.
    + by rewrite Hp, <- P2.
    + by apply String.leb_antisym.
  - by rewrite P1, Hp, P2.
Qed.

Lemma sort_order_independent_witness :
  (NoDup (courseNumber <$> example_records)
   ∧ example_records ≡ₚ rev example_records)
  ∧ sort_courses example_records = sort_courses (rev example_records).
Proof.
  assert (H1 : NoDup (courseNumber <$> example_records))
    by (apply (bool_decide_unpack _); vm_compute; exact I).
  assert (H2 : example_records ≡ₚ rev example_records)
    by apply Permutation_rev.
  split; [by split|].
  apply (sort_order_independent example_records (rev example_records) H1 H2).
Defined.

(** ** Where mergeSort is defined *)

Lemma vec_set_length {A} (v v' : list A) (i : Z) (x : A) :
  MergeSort.vec_set v i x = Some v' → length v' = length v.
Proof.
  unfold MergeSort.vec_set. case_decide; [|done].
  intros [= <-]. apply length_insert.
Qed.

Lemma copy_rest_length (m : nat) :
  ∀ (a : list Course) (n : Z) (courses : list Course) (i k : Z) r,
    Z.to_nat (n - i) = m →
    MergeSort.copy_rest a n courses i k = Some r →
    length r.1.1 = length courses.
Proof.
  induction m as [|m IH]; intros a n courses i k r Hm;
    rewrite MergeSort.copy_rest_equation_1; case_decide; try lia.
  - by intros [= <-].
  - destruct (MergeSort.vec_get a i) as [x|]; simpl; [|done].
    destruct (MergeSort.vec_set courses k x) as [c'|] eqn:Hset; simpl; [|done].
    intros Hr. apply IH in Hr; [|lia].
    by rewrite Hr, (vec_set_length _ _ _ _ Hset).
Qed.

Lemma merge_while_length (m : nat) :
  ∀ (leftArray rightArray : list Course) (n1 n2 : Z) (courses : list Course)
    (i j k : Z) r,
    (Z.to_nat (n1 - i) + Z.to_nat (n2 - j))%nat = m →
    MergeSort.merge_while leftArray rightArray n1 n2 courses i j k = Some r →
    length r.1.1.1 = length courses.
Proof.
  induction m as [|m IH]; intros leftArray rightArray n1 n2 courses i j k r Hm;
    rewrite MergeSort.merge_while_equation_1; case_decide; try lia;
    try (by intros [= <-]).
  destruct (MergeSort.vec_get leftArray i) as [l|]; simpl; [|done].
  destruct (MergeSort.vec_get rightArray j) as [r'|]; simpl; [|done].
  destruct (String.leb _ _).
  - destruct (MergeSort.vec_set courses k l) as [c'|] eqn:Hset; simpl; [|done].
    intros Hr. apply IH in Hr; [|lia].
    by rewrite Hr, (vec_set_length _ _ _ _ Hset).
  - destruct (MergeSort.vec_set courses k r') as [c'|] eqn:Hset; simpl; [|done].
    intros Hr. apply IH in Hr; [|lia].
    by rewrite Hr, (vec_set_length _ _ _ _ Hset).
Qed.

Lemma merge_length (courses courses' : list Course) (left_ mid right_ : Z) :
  MergeSort.merge courses left_ mid right_ = Some courses' →
  length courses' = length courses.
Proof.
  unfold MergeSort.merge, MergeSort.merge_loops.
  destruct (MergeSort.vec_new (mid - left_ + 1)) as [la|]; simpl; [|done].
  destruct (MergeSort.vec_new (right_ - mid)) as [ra|]; simpl; [|done].
  destruct (MergeSort.copy_loop _ _ _ la _) as [la'|]; simpl; [|done].
  destruct (MergeSort.copy_loop _ _ _ ra _) as [ra'|]; simpl; [|done].
  destruct (MergeSort.merge_while _ _ _ _ _ _ _ _) as [[[[c1 i1] j1] k1]|] eqn:E1;
    simpl; [|done].
  apply (merge_while_length _ _ _ _ _ _ _ _ _ _ eq_refl) in E1. simpl in E1.
  destruct (MergeSort.copy_rest la' _ _ _ _) as [[[c2 i2] k2]|] eqn:E2;
    simpl; [|done].
  apply (copy_rest_length _ _ _ _ _ _ _ eq_refl) in E2. simpl in E2.
  destruct (MergeSort.copy_rest ra' _ _ _ _) as [[[c3 j3] k3]|] eqn:E3;
    simpl; [|done].
  apply (copy_rest_length _ _ _ _ _ _ _ eq_refl) in E3. simpl in E3.
  intros [= <-]. congruence.
Qed.

(** Whatever the indices, a call of [mergeSort] that returns returns a vector
    of the length of its argument. *)
Lemma mergeSort_length (m : nat) :
  ∀ (courses courses' : list Course) (left_ right_ : Z),
    Z.to_nat (right_ - left_) = m →
    MergeSort.mergeSort courses left_ right_ = Some courses' →
    length courses' = length courses.
Proof.
  induction (lt_wf m) as [m _ IH]. intros courses courses' left_ right_ Hm.
  rewrite MergeSort.mergeSort_equation_1. case_decide as Hlt; [|by intros [= <-]].
  cbv zeta. set (mid := left_ + (right_ - left_) ÷ 2).
  assert (left_ ≤ mid < right_)
    by (subst mid; Z.to_euclidean_division_equations; lia).
  destruct (MergeSort.mergeSort courses left_ mid) as [c1|] eqn:E1; simpl; [|done].
  destruct (MergeSort.mergeSort c1 (mid + 1) right_) as [c2|] eqn:E2; simpl; [|done].
  intros Hmerge%merge_length.
  apply (IH (Z.to_nat (mid - left_))) in E1; [|lia|done].
  apply (IH (Z.to_nat (right_ - (mid + 1)))) in E2; [|lia|done].
  congruence.
Qed.

Lemma copy_loop_first_outside (src dst : list Course) (off n : Z) :
  0 < n → MergeSort.vec_get src off = None →
  MergeSort.copy_loop src off n dst 0 = None.
Proof.
  intros Hn Hget. rewrite MergeSort.copy_loop_equation_1.
  rewrite decide_True by lia. by rewrite Z.add_0_r, Hget.
Qed.

(** A range of two positions or more that is not inside the vector makes
    [mergeSort] read outside it. *)
Lemma mergeSort_outside (m : nat) :
  ∀ (courses : list Course) (left_ right_ : Z),
    Z.to_nat (right_ - left_) = m →
    left_ < right_ →
    ¬ (0 ≤ left_ ∧ right_ < Z.of_nat (length courses)) →
    MergeSort.mergeSort courses left_ right_ = None.
Proof.
  induction (lt_wf m) as [m _ IH]. intros courses left_ right_ Hm Hlt Hout.
  rewrite MergeSort.mergeSort_equation_1. rewrite decide_True by done.
  cbv zeta. set (mid := left_ + (right_ - left_) ÷ 2).
  assert (Hmid : left_ ≤ mid < right_)
    by (subst mid; Z.to_euclidean_division_equations; lia).
  destruct (MergeSort.mergeSort courses left_ mid) as [c1|] eqn:E1; simpl; [|done].
  pose proof (mergeSort_length _ _ _ _ _ eq_refl E1) as L1.
  destruct (MergeSort.mergeSort c1 (mid + 1) right_) as [c2|] eqn:E2; simpl; [|done].
  pose proof (mergeSort_length _ _ _ _ _ eq_refl E2) as L2.
  unfold MergeSort.merge, MergeSort.vec_new.
  rewrite !decide_True by lia. simpl.
  destruct (decide (0 ≤ left_)) as [H0|H0].
  - (* the range ends behind the vector *)
    assert (Hr : Z.of_nat (length courses) ≤ right_) by lia.
    destruct (decide (mid + 1 < right_)) as [H1|H1].
    { rewrite (IH (Z.to_nat (right_ - (mid + 1)))) in E2; [done|lia|done|done|lia]. }
    destruct (MergeSort.copy_loop c2 left_ _ _ 0); simpl; [|done].
    rewrite (copy_loop_first_outside c2 _ (mid + 1)); [done|lia|].
    unfold MergeSort.vec_get. case_decide; [|done].
    apply lookup_ge_None. lia.
  - (* the range starts before the vector *)
    destruct (decide (left_ < mid)) as [H1|H1].
    { rewrite (IH (Z.to_nat (mid - left_))) in E1; [done|lia|done|done|lia]. }
    rewrite (copy_loop_first_outside c2 _ left_); [done|lia|].
    unfold MergeSort.vec_get. by rewrite decide_False.
Qed.

(** X14. Where [mergeSort] is defined.  A call that returns returns a vector
    of the same length, whatever the indices.  A call on a range of two
    positions or more returns exactly when the range lies inside the vector:
    with [right_] at or behind the end, or [left_] negative, it reads outside
    the vector. *)
Theorem mergeSort_defined (courses : list Course) (left_ right_ : Z) :
  (∀ courses', MergeSort.mergeSort courses left_ right_ = Some courses' →
     length courses' = length courses)
  ∧ (left_ < right_ →
     (is_Some (MergeSort.mergeSort courses left_ right_)
      ↔ 0 ≤ left_ ∧ right_ < Z.of_nat (length courses))).
Proof.
  split.
  - intros courses'. apply (mergeSort_length _ courses courses' left_ right_ eq_refl).
  - intros Hlt. split.
    + intros Hsome.
      destruct (decide (0 ≤ left_ ∧ right_ < Z.of_nat (length courses)))
        as [|Hout]; [done|].
      rewrite (mergeSort_outside _ courses left_ right_ eq_refl Hlt Hout) in Hsome.
      by destruct Hsome.
    + intros [H0 Hr].
      destruct (mergeSort_slice courses left_ right_) as (s & -> & _); [lia..|].
      eauto.
Qed.

(** The sort called with the size of the vector as [right_], one too many,
    reads outside the vector. *)
Example mergeSort_one_past_the_end :
  MergeSort.mergeSort example_records 0 3 = None.
Proof. vm_compute. reflexivity. Qed.


(** ** format *)

Lemma format_not_nil (s : string) : format s ≠ [].
Proof.
  destruct s as [|c s]; simpl; [done|].
  destruct (Ascii.eqb c ","); [done|]. by destruct (format s).
Qed.

Lemma append_nil_l (s : string) : String.append EmptyString s = s.
Proof. reflexivity. Qed.

Lemma append_cons (c : ascii) (s1 s2 : string) :
  String.append (String c s1) s2 = String c (String.append s1 s2).
Proof. reflexivity. Qed.

Lemma concat_cons_not_nil (x : string) (fields : list string) :
  fields ≠ [] →
  String.concat "," (x :: fields)
  = (x ++ String "," (String.concat "," fields))%string.
Proof. by destruct fields. Qed.

Lemma format_concat (s : string) : String.concat "," (format s) = s.
Proof.
  induction s as [|c s IH]; simpl; [done|].
  destruct (Ascii.eqb_spec c ",") as [->|Hc].
  - rewrite concat_cons_not_nil by apply format_not_nil.
    by rewrite append_nil_l, IH.
  - destruct (format s) as [|field fields]; [simpl in *; by rewrite <- IH|].
    destruct fields as [|field' fields].
    + simpl in *. by rewrite IH.
    + rewrite concat_cons_not_nil in * by done. by rewrite append_cons, IH.
Qed.

Lemma format_fields (s : string) : Forall (λ field, commas field = 0%nat) (format s).
Proof.
  induction s as [|c s IH]; simpl; [by repeat constructor|].
  destruct (Ascii.eqb_spec c ",") as [->|Hc].
  - by constructor.
  - destruct (format s) as [|field fields]; simpl.
    + repeat constructor. simpl. by rewrite (proj2 (Ascii.eqb_neq _ _) Hc).
    + apply Forall_cons in IH as [Hf Hfs]. constructor; [|done].
      simpl. by rewrite (proj2 (Ascii.eqb_neq _ _) Hc).
Qed.

Lemma format_length (s : string) : length (format s) = S (commas s).
Proof.
  induction s as [|c s IH]; simpl; [done|].
  destruct (Ascii.eqb c ","); simpl; [by rewrite IH|].
  destruct (format s); simpl in *; lia.
Qed.

(** X15. [format] cuts a line at its commas: putting the fields together
    with commas between gives the line back, no field holds a comma, and
    there is one field more than the line has commas (so at least one). *)
Theorem format_round_trip (s : string) :
  String.concat "," (format s) = s
  ∧ Forall (λ field, commas field = 0%nat) (format s)
  ∧ length (format s) = S (commas s).
Proof. split; [apply format_concat|]. split; [apply format_fields|apply format_length]. Qed.

Lemma format_no_comma (field : string) :
  commas field = 0%nat → format field = [field].
Proof.
  induction field as [|c field IH]; simpl; [done|].
  destruct (Ascii.eqb c ","); simpl; [done|]. intros H. by rewrite IH.
Qed.

Lemma format_app_comma (field rest : string) :
  commas field = 0%nat →
  format (field ++ String "," rest) = field :: format rest.
Proof.
  induction field as [|c field IH]; [done|].
  rewrite append_cons. simpl.
  destruct (Ascii.eqb c ","); simpl; [done|]. intros H. by rewrite IH.
Qed.

(** X16. [format] undoes the joining of fields: a list of fields, not
    empty, none of which holds a comma, comes back from the line that joins
    them with commas. *)
Theorem format_concat_fields (fields : list string) :
  fields ≠ [] →
  Forall (λ field, commas field = 0%nat) fields →
  format (String.concat "," fields) = fields.
Proof.
  intros Hne Hall. induction Hall as [|field fields Hf Hfs IH]; [done|].
  destruct fields as [|field' fields].
  - simpl. by apply format_no_comma.
  - rewrite concat_cons_not_nil by done.
    rewrite format_app_comma by done. f_equal. by apply IH.
Qed.

Lemma format_concat_fields_witness :
  (["CSCI300"; "Introduction to Algorithms"; "CSCI200"; "MATH201"]%string ≠ []
   ∧ Forall (λ field, commas field = 0%nat)
       ["CSCI300"; "Introduction to Algorithms"; "CSCI200"; "MATH201"]%string)
  ∧ format "CSCI300,Introduction to Algorithms,CSCI200,MATH201"
    = ["CSCI300"; "Introduction to Algorithms"; "CSCI200"; "MATH201"]%string.
Proof.
  assert (H : Forall (λ field, commas field = 0%nat)
                ["CSCI300"; "Introduction to Algorithms"; "CSCI200"; "MATH201"]%string)
    by (repeat constructor).
  split; [by split|].
  apply (format_concat_fields
           ["CSCI300"; "Introduction to Algorithms"; "CSCI200"; "MATH201"]%string);
    [done|exact H].
Defined.

(** ** The loader: what a load reads *)

Lemma read_lines_after_mark (lines lines' : list string) (st : reading) :
  read_lines (lines ++ "-1"%string :: lines') st = read_lines lines st.
Proof.
  revert st. induction lines as [|line lines IH]; intros st; simpl.
  - by destruct lines'.
  - destruct (String.eqb line "-1"); [done|].
    destruct (format line !! 0%nat) as [number|]; simpl; [|done].
    destruct (format line !! 1%nat) as [title|]; simpl; [|done].
    apply IH.
Qed.

(** X17. The lines behind the end mark [-1] are not read: a file gives the
    same load, whatever stands behind the mark, as the file that stops
    before it. *)
Theorem loadCoursesFile_after_mark
    (lines lines' : list string) (w : Globals) :
  loadCoursesFile (Some (lines ++ "-1"%string :: lines')) w
  = loadCoursesFile (Some lines) w.
Proof.
  unfold loadCoursesFile. simpl. by rewrite read_lines_after_mark.
Qed.

(** The records of the loop, their lines, and the flag [entered]. *)
Lemma read_lines_lines (lines : list string) (st st' : reading) :
  read_lines lines st = Some st' →
  ∃ records,
    courses st' = courses st ++ records
    ∧ courseHashTable (globals st')
      = foldl CourseHashTable.insert (courseHashTable (globals st)) records
    ∧ prereqGraph (globals st')
      = foldl PrerequisiteGraph.addCourse (prereqGraph (globals st)) records
    ∧ line_of <$> records = before_mark lines
    ∧ entered st' = entered st || bool_decide (records ≠ []).
Proof.
  revert st. induction lines as [|line lines IH]; intros st Hread; simpl in *.
  - simplify_eq. exists []. rewrite app_nil_r, orb_false_r. done.
  - destruct (String.eqb line "-1").
    { simplify_eq. exists []. rewrite app_nil_r, orb_false_r. done. }
    pose proof (format_concat line) as Hline.
    destruct (format line) as [|number [|title prereqs]] eqn:Hf;
      simpl in Hread; [done..|].
    change (drop 0 prereqs) with prereqs in Hread.
    apply IH in Hread as (records & Hc & Hh & Hg & Hl & He).
    simpl in Hc, Hh, Hg, He.
    exists (mkCourse number title prereqs :: records).
    rewrite Hc, <- app_assoc, Hh, Hg, He, fmap_cons, Hl.
    rewrite bool_decide_eq_true_2, orb_true_r by done.
    unfold line_of. simpl prerequisites. simpl courseNumber. simpl name.
    by rewrite Hline.
Qed.

(** The loop reads outside a line exactly when a line before the end mark has
    no comma. *)
Lemma read_lines_defined (lines : list string) (st : reading) :
  is_Some (read_lines lines st)
  ↔ Forall (λ line, (0 < commas line)%nat) (before_mark lines).
Proof.
  revert st. induction lines as [|line lines IH]; intros st; simpl.
  - split; [by constructor|eauto].
  - destruct (String.eqb line "-1"); [split; [by constructor|eauto]|].
    pose proof (format_length line) as Hlen.
    destruct (format line) as [|number [|title prereqs]]; simpl in *.
    + done.
    + split; [by intros []|]. intros [H _]%Forall_cons. lia.
    + rewrite IH, Forall_cons. split; [|by intros [_ ?]].
      intros H. split; [lia|done].
Qed.

(** X18. [loadCoursesFile] is defined, that is reads no field outside a
    line, exactly when every line before the end mark holds a comma. *)
Theorem loadCoursesFile_defined (file : option (list string)) (w : Globals) :
  is_Some (loadCoursesFile file w)
  ↔ Forall (λ line, (0 < commas line)%nat) (before_mark (default [] file)).
Proof.
  rewrite <- (read_lines_defined _
    (mkReading [] false
       (set_prereqGraph PrerequisiteGraph.new
          (set_courseHashTable CourseHashTable.new w)))).
  unfold loadCoursesFile.
  destruct (read_lines _ _) as [st|]; simpl; [|split; by intros []].
  split; [eauto|intros _].
  destruct (entered st); simpl; [|eauto].
  case_bool_decide; [eauto|].
  destruct (sort_courses_spec (courses st)) as (sorted & E & _).
  unfold sort_courses in E. rewrite E. simpl. eauto.
Qed.

(** What a load that returns leaves, in all its cases. *)
Lemma loadCoursesFile_result (file : option (list string)) (w : Globals)
    (loaded : list Course) (w' : Globals) (msg : Message) :
  loadCoursesFile file w = Some (loaded, w', msg) →
  ∃ records,
    line_of <$> records = before_mark (default [] file)
    ∧ stable_sort_of records loaded
    ∧ w' = mkGlobals (store_of records) (graph_of records)
             (bool_decide (records ≠ []))
    ∧ msg = if bool_decide (records ≠ []) then SuccessfullyLoaded
            else CouldNotAccess.
Proof.
  unfold loadCoursesFile. intros Hload.
  destruct (read_lines _ _) as [st|] eqn:Hread; simpl in Hload; [|done].
  destruct (read_lines_lines _ _ _ Hread) as (records & Hc & Hh & Hg & Hl & He).
  simpl in Hc, Hh, Hg, He. subst records. exists (courses st).
  rewrite He in Hload. split; [done|].
  case_bool_decide as Hrec; simpl in Hload.
  - rewrite bool_decide_eq_false_2 in Hload
      by (by destruct (courses st)).
    destruct (sort_courses_spec (courses st)) as (sorted & E & Hs & _).
    unfold sort_courses in E. rewrite E in Hload. simpl in Hload.
    simplify_eq. split; [done|]. split; [|done].
    unfold set_dataLoaded, store_of, graph_of. by rewrite Hh, Hg.
  - rewrite Hrec in *. simplify_eq.
    split; [|split; [|done]].
    + repeat split; try done. apply SSorted_nil.
    + unfold set_dataLoaded, store_of, graph_of. by rewrite Hh, Hg.
Qed.

(** The records that the reading loop appends: one for each line before the
    end mark, made of the fields of the line. *)
Lemma read_lines_fields (lines : list string) (st st' : reading) :
  read_lines lines st = Some st' →
  ∃ records,
    courses st' = courses st ++ records
    ∧ Forall2
        (λ c line, format line = courseNumber c :: name c :: prerequisites c)
        records (before_mark lines).
Proof.
  revert st. induction lines as [|line lines IH]; intros st Hread; simpl in *.
  - simplify_eq. exists []. by rewrite app_nil_r.
  - destruct (String.eqb line "-1").
    { simplify_eq. exists []. by rewrite app_nil_r. }
    destruct (format line) as [|number [|title prereqs]] eqn:Hf;
      simpl in Hread; [done..|].
    change (drop 0 prereqs) with prereqs in Hread.
    apply IH in Hread as (records & Hc & Hl). simpl in Hc.
    exists (mkCourse number title prereqs :: records).
    split; [by rewrite Hc, <- app_assoc|]. by constructor.
Qed.

(** What a load that returns leaves, the records named by the fields of the
    lines. *)
Lemma loadCoursesFile_records (file : option (list string)) (w : Globals)
    (loaded : list Course) (w' : Globals) (msg : Message) :
  loadCoursesFile file w = Some (loaded, w', msg) →
  ∃ records,
    Forall2
      (λ c line, format line = courseNumber c :: name c :: prerequisites c)
      records (before_mark (default [] file))
    ∧ stable_sort_of records loaded
    ∧ w' = mkGlobals (store_of records) (graph_of records)
             (bool_decide (records ≠ []))
    ∧ msg = if bool_decide (records ≠ []) then SuccessfullyLoaded
            else CouldNotAccess.
Proof.
  unfold loadCoursesFile. intros Hload.
  destruct (read_lines _ _) as [st|] eqn:Hread; simpl in Hload; [|done].
  destruct (read_lines_fields _ _ _ Hread) as (records' & Hc' & Hfields).
  destruct (read_lines_lines _ _ _ Hread) as (records & Hc & Hh & Hg & Hl & He).
  simpl in Hc', Hc, Hh, Hg, He. subst records' records. exists (courses st).
  rewrite He in Hload. split; [done|].
  case_bool_decide as Hrec; simpl in Hload.
  - rewrite bool_decide_eq_false_2 in Hload
      by (by destruct (courses st)).
    destruct (sort_courses_spec (courses st)) as (sorted & E & Hs & _).
    unfold sort_courses in E. rewrite E in Hload. simpl in Hload.
    simplify_eq. split; [done|]. split; [|done].
    unfold set_dataLoaded, store_of, graph_of. by rewrite Hh, Hg.
  - rewrite Hrec in *. simplify_eq.
    split; [|split; [|done]].
    + repeat split; try done. apply SSorted_nil.
    + unfold set_dataLoaded, store_of, graph_of. by rewrite Hh, Hg.
Qed.

(** A load returns when every line before the end mark holds a comma. *)
Lemma loadCoursesFile_returns (file : option (list string)) (w : Globals) :
  Forall (λ line, (0 < commas line)%nat) (before_mark (default [] file)) →
  is_Some (loadCoursesFile file w).
Proof.
  intros Hlines. unfold loadCoursesFile.
  destruct (proj2 (read_lines_defined (default [] file)
              (mkReading [] false
                 (set_prereqGraph PrerequisiteGraph.new
                    (set_courseHashTable CourseHashTable.new w)))) Hlines)
    as [st Hread].
  rewrite Hread. simpl.
  destruct (entered st); simpl; [|eauto].
  case_bool_decide; [eauto|].
  destruct (sort_courses_spec (courses st)) as (sorted & E & _).
  unfold sort_courses in E. rewrite E. simpl. eauto.
Qed.

(** C4, amended.  Every load discards the store and the graph of the load
    before: its outcome is the same from any prior globals.  A load that reads
    no input leaves both empty, [dataLoaded] false, and says that the file
    could not be accessed.  A successful load leaves the store and the graph
    built from the records of the file alone: there is one record for each
    line before the end mark, in the order of the lines and with the fields of
    its line; the store and the graph are those that these records build from
    empty ones, and the returned vector is these records sorted stably.  A
    file that has a line before the end mark, every such line holding a
    comma, is loaded successfully. *)
Theorem load_replaces_catalog (file : option (list string)) (w : Globals) :
  (∀ w', loadCoursesFile file w' = loadCoursesFile file w)
  ∧ (reads_no_input file →
     loadCoursesFile file w
     = Some ([], mkGlobals CourseHashTable.new PrerequisiteGraph.new false,
             CouldNotAccess))
  ∧ (∀ sorted w',
       loadCoursesFile file w = Some (sorted, w', SuccessfullyLoaded) →
       ∃ records,
         Forall2
           (λ c line, format line = courseNumber c :: name c :: prerequisites c)
           records (before_mark (default [] file))
         ∧ sorted ≡ₚ records
         ∧ stable_sort_of records sorted
         ∧ w' = mkGlobals (store_of records) (graph_of records) true)
  ∧ (before_mark (default [] file) ≠ [] →
     Forall (λ line, (0 < commas line)%nat) (before_mark (default [] file)) →
     ∃ sorted w',
       loadCoursesFile file w = Some (sorted, w', SuccessfullyLoaded)).
Proof.
  split; [intros w'; apply loadCoursesFile_prior_state|]. split; [|split].
  - intros Hno. unfold loadCoursesFile, reads_no_input in *.
    destruct (default [] file) as [|line lines]; simpl; [done|].
    subst line. done.
  - intros sorted w' Hload.
    destruct (loadCoursesFile_records _ _ _ _ _ Hload)
      as (records & Hf & Hs & -> & Hm).
    exists records. split; [done|]. split; [apply Hs|]. split; [done|].
    by case_bool_decide.
  - intros Hne Hlines.
    destruct (loadCoursesFile_returns file w Hlines) as [[[sorted w'] msg] Hload].
    destruct (loadCoursesFile_records _ _ _ _ _ Hload)
      as (records & Hf & _ & _ & Hm).
    exists sorted, w'. rewrite Hload. do 2 f_equal.
    rewrite Hm, bool_decide_eq_true_2; [done|].
    intros ->. apply Forall2_nil_inv_l in Hf. done.
Qed.

Lemma load_replaces_catalog_witness :
  (reads_no_input None
   ∧ loadCoursesFile None example_globals
     = Some ([], mkGlobals CourseHashTable.new PrerequisiteGraph.new false,
             CouldNotAccess))
  ∧ ∃ sorted w',
      loadCoursesFile (Some example_file) example_globals
      = Some (sorted, w', SuccessfullyLoaded).
Proof.
  split.
  - split; [exact I|].
    apply (load_replaces_catalog None example_globals). exact I.
  - apply (load_replaces_catalog (Some example_file) example_globals).
    + vm_compute. discriminate.
    + vm_compute. repeat constructor.
Defined.

(** X19. What a load that returns leaves.  There are records, one for each
    line before the end mark and in the order of the lines, each giving its
    line back when its fields are joined with commas; the returned vector is
    these records sorted stably; the store and the graph are those that the
    records build from empty ones; [dataLoaded] says whether there is a
    record, and so does the message, which is never the one for an empty
    file. *)
Theorem loadCoursesFile_postcondition
    (file : option (list string)) (w : Globals)
    (loaded : list Course) (w' : Globals) (msg : Message) :
  loadCoursesFile file w = Some (loaded, w', msg) →
  msg ≠ AppearsEmpty
  ∧ (dataLoaded w' = true ↔ msg = SuccessfullyLoaded)
  ∧ (dataLoaded w' = true ↔ loaded ≠ [])
  ∧ ∃ records,
      line_of <$> records = before_mark (default [] file)
      ∧ stable_sort_of records loaded
      ∧ courseHashTable w' = store_of records
      ∧ prereqGraph w' = graph_of records.
Proof.
  intros (records & Hl & Hs & -> & ->)%loadCoursesFile_result. simpl.
  assert (Hne : records ≠ [] ↔ loaded ≠ []).
  { destruct Hs as (Hp & _). split; intros H ->.
    - by apply Permutation_nil_l in Hp.
    - apply Permutation_nil_r in Hp. done. }
  split; [by case_bool_decide|].
  split; [by case_bool_decide|].
  split; [|by exists records].
  rewrite <- Hne. case_bool_decide; naive_solver.
Qed.

Lemma loadCoursesFile_postcondition_witness :
  (∃ loaded w',
     loadCoursesFile (Some example_file) example_globals
     = Some (loaded, w', SuccessfullyLoaded))
  ∧ SuccessfullyLoaded ≠ AppearsEmpty.
Proof.
  assert (H : ∃ loaded w',
            loadCoursesFile (Some example_file) example_globals
            = Some (loaded, w', SuccessfullyLoaded))
    by (vm_compute; eauto).
  split; [exact H|].
  destruct H as (loaded & w' & H).
  apply (loadCoursesFile_postcondition _ _ _ _ _ H).
Defined.

(** X20. Lookup after a load that returns: what a lookup finds is a record
    of the returned vector whose identifier equals the one asked for up to
    case, and every record of the returned vector is found, under its own or
    any spelling of its identifier, as a record with that identifier up to
    case.  No record of an earlier load is found. *)
Theorem find_after_load
    (file : option (list string)) (w : Globals)
    (loaded : list Course) (w' : Globals) (msg : Message) :
  loadCoursesFile file w = Some (loaded, w', msg) →
  (∀ X c, CourseHashTable.find (courseHashTable w') X = Some c →
     c ∈ loaded ∧ toLower (courseNumber c) = toLower X)
  ∧ (∀ c X, c ∈ loaded → toLower X = toLower (courseNumber c) →
       ∃ c', CourseHashTable.find (courseHashTable w') X = Some c'
             ∧ c' ∈ loaded
             ∧ toLower (courseNumber c') = toLower (courseNumber c)).
Proof.
  intros (records & _ & (Hp & _) & -> & _)%loadCoursesFile_result. simpl.
  assert (Hfind : ∀ X c, CourseHashTable.find (store_of records) X = Some c →
            c ∈ loaded ∧ toLower (courseNumber c) = toLower X).
  { intros X c. unfold CourseHashTable.find. rewrite store_of_lookup.
    intros H%last_Some_elem_of. apply list_elem_of_filter in H as [H1 H2].
    by rewrite Hp. }
  split; [done|]. intros c X Hc HX.
  destruct (CourseHashTable.find (store_of records) X) as [c'|] eqn:E.
  - destruct (Hfind X c' E) as [H1 H2]. exists c'. by rewrite H2.
  - exfalso. unfold CourseHashTable.find in E. rewrite store_of_lookup in E.
    apply last_None in E.
    assert (c ∈ filter (λ c0, toLower (courseNumber c0) = toLower X) records)
      as Hin by (apply list_elem_of_filter; by rewrite <- Hp).
    rewrite E in Hin. by apply elem_of_nil in Hin.
Qed.

Lemma find_after_load_witness :
  (∃ loaded w',
     loadCoursesFile (Some example_file) example_globals
     = Some (loaded, w', SuccessfullyLoaded))
  ∧ ∀ loaded w',
      loadCoursesFile (Some example_file) example_globals
      = Some (loaded, w', SuccessfullyLoaded) →
      ∀ X c, CourseHashTable.find (courseHashTable w') X = Some c → c ∈ loaded.
Proof.
  split; [vm_compute; eauto|].
  intros loaded w' H X c Hf.
  destruct (find_after_load _ _ _ _ _ H) as [Hfound _].
  by apply (Hfound X c).
Defined.

(** ** The loop of [format] *)

Lemma length_append (a b : string) :
  String.length (a +:+ b) = (String.length a + String.length b)%nat.
Proof. induction a as [|c a IH]; [done|]. rewrite append_cons. simpl. by rewrite IH. Qed.

Lemma append_assoc (a b c : string) : (a +:+ b) +:+ c = a +:+ b +:+ c.
Proof.
  induction a as [|x a IH]; [by rewrite !append_nil_l|].
  by rewrite !append_cons, IH.
Qed.

Lemma append_nil_r (a : string) : a +:+ EmptyString = a.
Proof. induction a as [|x a IH]; [done|]. by rewrite append_cons, IH. Qed.

Lemma substring_append (a b : string) (m : nat) :
  String.substring (String.length a) m (a +:+ b) = String.substring 0 m b.
Proof. induction a as [|c a IH]; [by rewrite append_nil_l|]. by rewrite append_cons. Qed.

Lemma substring_prefix (a b : string) :
  String.substring 0 (String.length a) (a +:+ b) = a.
Proof.
  induction a as [|c a IH].
  - rewrite append_nil_l. by destruct b.
  - rewrite append_cons. simpl. by rewrite IH.
Qed.

Lemma substring_all (a : string) (m : nat) :
  (String.length a ≤ m)%nat → String.substring 0 m a = a.
Proof.
  revert m. induction a as [|c a IH]; intros [|m] Hm; simpl in *; try done; try lia.
  rewrite IH; [done|lia].
Qed.

Lemma substring_split (b : string) (n : nat) :
  b = String.substring 0 n b +:+ String.substring n (String.length b - n) b.
Proof.
  revert n. induction b as [|c b IH]; intros [|n]; simpl.
  - done.
  - done.
  - rewrite append_nil_l. by rewrite substring_all.
  - rewrite append_cons. by rewrite <-IH.
Qed.

Lemma index_append (a b del : string) :
  String.index (String.length a) del (a +:+ b)
  = (λ k, (String.length a + k)%nat) <$> String.index 0 del b.
Proof.
  induction a as [|c a IH].
  - rewrite append_nil_l. simpl. by destruct (String.index 0 del b).
  - rewrite append_cons. simpl. rewrite IH.
    by destruct (String.index 0 del b).
Qed.

(** Where [find] finds the delimiter: behind a piece. *)
Lemma index_found (del b : string) (k : nat) :
  String.index 0 del b = Some k →
  ∃ x y, b = x +:+ del +:+ y ∧ String.length x = k.
Proof.
  revert k. induction b as [|c b IH]; intros k Hk.
  - simpl in Hk. destruct del; [|done]. simplify_eq.
    by exists EmptyString, EmptyString.
  - change (String.index 0 del (String c b))
      with (if String.prefix del (String c b) then Some 0%nat
            else match String.index 0 del b with
                 | Some n => Some (S n)
                 | None => None
                 end) in Hk.
    destruct (String.prefix del (String c b)) eqn:Hp.
    + simplify_eq. apply String.prefix_correct in Hp.
      exists EmptyString,
        (String.substring (String.length del)
           (String.length (String c b) - String.length del) (String c b)).
      split; [|done]. rewrite append_nil_l.
      etrans; [apply (substring_split _ (String.length del))|]. by rewrite Hp.
    + destruct (String.index 0 del b) as [k'|] eqn:Hi; [|done]. simplify_eq.
      destruct (IH k' eq_refl) as (x & y & -> & <-).
      exists (String c x), y. by rewrite append_cons.
Qed.

(** Where [find] finds a comma: behind a piece that holds none. *)
Lemma index_comma (b : string) :
  match String.index 0 "," b with
  | Some k => ∃ x y, b = x +:+ "," +:+ y ∧ String.length x = k ∧ commas x = 0%nat
  | None => commas b = 0%nat
  end.
Proof.
  induction b as [|c b IH]; [done|].
  cbn [String.index String.prefix].
  destruct (ascii_dec "," c) as [<-|Hc].
  - replace (String.prefix EmptyString b) with true by (by destruct b).
    by exists EmptyString, b.
  - assert (Ascii.eqb c "," = false) as Hcb
      by (apply Ascii.eqb_neq; congruence).
    destruct (String.index 0 "," b) as [k|].
    + destruct IH as (x & y & -> & <- & Hx).
      exists (String c x), y. rewrite append_cons. simpl. by rewrite Hcb, Hx.
    + simpl. by rewrite Hcb, IH.
Qed.

(** One turn of the loop, and what follows the loop. *)
Lemma format_loop_turn (fuel : nat) (pre x del y : string) (result : list string) :
  let s := pre +:+ x +:+ del +:+ y in
  let pre' := (pre +:+ x) +:+ del in
  format_loop (S fuel) s del (String.length pre)
    (Some (String.length pre + String.length x)%nat) result
  = format_loop fuel s del (String.length pre')
      ((λ k, (String.length pre' + k)%nat) <$> String.index 0 del y)
      (result ++ [x]).
Proof.
  intros s pre'. simpl. unfold substr.
  assert (String.length pre ≤ String.length s)%nat
    by (unfold s; rewrite length_append; lia).
  rewrite decide_True by done. simpl.
  replace (String.length pre + String.length x - String.length pre)%nat
    with (String.length x) by lia.
  assert (String.substring (String.length pre) (String.length x) s = x) as ->
    by (unfold s; by rewrite substring_append, substring_prefix).
  replace (String.length pre + String.length x + String.length del)%nat
    with (String.length pre') by (unfold pre'; rewrite !length_append; lia).
  assert (String.index (String.length pre') del s
          = (λ k, (String.length pre' + k)%nat) <$> String.index 0 del y) as ->.
  { replace s with (pre' +:+ y)
      by (unfold s, pre'; by rewrite !append_assoc).
    apply index_append. }
  done.
Qed.

Lemma format_loop_last (fuel : nat) (pre suf del : string) (result : list string) :
  format_loop fuel (pre +:+ suf) del (String.length pre) None result
  = Some (result ++ [suf]).
Proof.
  destruct fuel; simpl; unfold substr;
    (rewrite decide_True by (rewrite length_append; lia)); simpl;
    rewrite substring_append, substring_all; try done;
    rewrite length_append; lia.
Qed.

Lemma format_loop_comma (fuel : nat) (pre suf : string) (result : list string) :
  (String.length suf < fuel)%nat →
  format_loop fuel (pre +:+ suf) "," (String.length pre)
    ((λ k, (String.length pre + k)%nat) <$> String.index 0 "," suf) result
  = Some (result ++ format suf).
Proof.
  revert pre suf result. induction fuel as [|fuel IH]; intros pre suf result Hf; [lia|].
  pose proof (index_comma suf) as Hi.
  destruct (String.index 0 "," suf) as [k|].
  - destruct Hi as (x & y & -> & <- & Hx). simpl fmap.
    rewrite format_loop_turn.
    replace (pre +:+ x +:+ "," +:+ y) with (((pre +:+ x) +:+ ",") +:+ y)
      by (by rewrite !append_assoc).
    rewrite IH by (rewrite !length_append in Hf; simpl in Hf; lia).
    change ("," +:+ y) with (String "," y).
    by rewrite format_app_comma, <-(assoc_L (++)).
  - simpl fmap. rewrite format_loop_last. by rewrite format_no_comma.
Qed.

Lemma format_loop_returns (fuel : nat) (pre suf del : string) (result : list string) :
  del ≠ EmptyString →
  (String.length suf < fuel)%nat →
  ∃ fields,
    format_loop fuel (pre +:+ suf) del (String.length pre)
      ((λ k, (String.length pre + k)%nat) <$> String.index 0 del suf) result
    = Some (result ++ fields)
    ∧ fields ≠ []
    ∧ String.concat del fields = suf.
Proof.
  intros Hdel. revert pre suf result.
  induction fuel as [|fuel IH]; intros pre suf result Hf; [lia|].
  destruct (String.index 0 del suf) as [k|] eqn:Hi.
  - destruct (index_found _ _ _ Hi) as (x & y & -> & <-). simpl fmap.
    rewrite format_loop_turn.
    replace (pre +:+ x +:+ del +:+ y) with (((pre +:+ x) +:+ del) +:+ y)
      by (by rewrite !append_assoc).
    destruct (IH ((pre +:+ x) +:+ del) y (result ++ [x])) as (fields & -> & Hne & Hc).
    { rewrite !length_append in Hf. destruct del; [done|]. simpl in Hf. lia. }
    exists (x :: fields). split; [by rewrite <-(assoc_L (++))|]. split; [done|].
    destruct fields as [|f fields]; [done|]. simpl in *. by rewrite Hc.
  - simpl fmap. rewrite format_loop_last. by exists [suf].
Qed.

(** X21. The loop of [format] with the comma as delimiter computes [format]:
    it ends after at most as many turns as the line is long and returns the
    fields between the commas. *)
Theorem format_del_comma (fuel : nat) (s : string) :
  (String.length s < fuel)%nat →
  format_del fuel s "," = Some (format s).
Proof.
  intros Hf. unfold format_del.
  pose proof (format_loop_comma fuel EmptyString s [] Hf) as H.
  rewrite append_nil_l in H. simpl String.length in H.
  by destruct (String.index 0 "," s).
Qed.

Lemma format_del_comma_witness :
  format_del 11 "A1,Algebra"%string "," = Some ["A1"; "Algebra"]%string.
Proof. apply (format_del_comma 11 "A1,Algebra"). simpl. lia. Defined.

(** X22. [format] with another delimiter.  With a delimiter that is not
    empty the loop ends after at most as many turns as the line is long, and
    joining the fields it returns with the delimiter gives the line back.
    With the empty delimiter the loop does not end: [find] finds it at
    position [0] in every turn. *)
Theorem format_del_returns (s del : string) :
  (del ≠ EmptyString →
   ∀ fuel, (String.length s < fuel)%nat →
     ∃ fields, format_del fuel s del = Some fields
               ∧ fields ≠ [] ∧ String.concat del fields = s)
  ∧ (del = EmptyString → ∀ fuel, format_del fuel s del = None).
Proof.
  split.
  - intros Hdel fuel Hf. unfold format_del.
    destruct (format_loop_returns fuel EmptyString s del [] Hdel Hf)
      as (fields & H & Hne & Hc).
    rewrite append_nil_l in H. simpl String.length in H.
    exists fields. split; [|done]. etrans; [|exact H].
    by destruct (String.index 0 del s).
  - intros -> fuel. unfold format_del.
    assert (∀ result, format_loop fuel s EmptyString 0 (Some 0%nat) result = None) as Hloop.
    { induction fuel as [|fuel IH]; intros result; [done|].
      simpl.
      replace (String.index 0 EmptyString s) with (Some 0%nat) by (by destruct s).
      apply IH. }
    replace (String.index 0 EmptyString s) with (Some 0%nat) by (by destruct s).
    apply Hloop.
Qed.

(** ** What is printed *)

Lemma commas_append (a b : string) :
  commas (a +:+ b) = (commas a + commas b)%nat.
Proof.
  induction a as [|c a IH]; [by rewrite append_nil_l|].
  rewrite append_cons. simpl. rewrite IH. lia.
Qed.

Lemma print_prerequisites_loop (pre rest : list string) (text : string) :
  foldl
    (λ text i,
       text +:+ default EmptyString ((pre ++ rest) !! i)
       +:+ (if decide (i < length (pre ++ rest) - 1)%nat
            then ", " else EmptyString))
    text (seq (length pre) (length rest))
  = text +:+ String.concat ", " rest.
Proof.
  revert pre text. induction rest as [|x rest IH]; intros pre text.
  { simpl. by rewrite append_nil_r. }
  simpl seq. simpl foldl. rewrite list_lookup_middle by done. simpl default.
  replace (pre ++ x :: rest) with ((pre ++ [x]) ++ rest)
    by (by rewrite <-(assoc_L (++))).
  replace (S (length pre)) with (length (pre ++ [x]))
    by (rewrite length_app; simpl; lia).
  rewrite IH. rewrite !length_app. simpl length.
  destruct rest as [|y rest].
  - rewrite decide_False by (simpl; lia). simpl.
    by rewrite !append_nil_r.
  - rewrite decide_True by (simpl; lia).
    change (String.concat ", " (x :: y :: rest))
      with (x +:+ ", " +:+ String.concat ", " (y :: rest)).
    by rewrite !append_assoc.
Qed.

Lemma print_prerequisites_concat (prereqs : list string) :
  print_prerequisites prereqs = String.concat ", " prereqs.
Proof.
  unfold print_prerequisites.
  etrans; [exact (print_prerequisites_loop [] prereqs EmptyString)|].
  by rewrite append_nil_l.
Qed.

Lemma printCourseList_loop (courses : list Course) (text : string) :
  foldl (λ text course, text +:+ printCourse course) text courses
  = text +:+ String.concat EmptyString (printCourse <$> courses).
Proof.
  revert text. induction courses as [|c courses IH]; intros text.
  { simpl. by rewrite append_nil_r. }
  simpl foldl. rewrite IH. destruct courses as [|c' courses].
  - simpl. by rewrite append_nil_r.
  - change (String.concat EmptyString (printCourse <$> c :: c' :: courses))
      with (printCourse c +:+ EmptyString
            +:+ String.concat EmptyString (printCourse <$> c' :: courses)).
    by rewrite append_nil_l, append_assoc.
Qed.

(** X23. What the two printing functions write, their loops resolved: a
    course is written as its identifier and title and, unless it has none,
    its prerequisites with a comma and a blank between them; a list that is
    not empty is written as its courses one behind the other. *)
Theorem printCourse_text (course : Course) (courses : list Course) :
  printCourse course
  = (courseNumber course +:+ ", " +:+ name course +:+ endl)
    +:+ (if decide (prerequisites course = [])
         then "No prerequisites" +:+ endl +:+ endl
         else "Prerequisites: "
              +:+ String.concat ", " (prerequisites course) +:+ endl +:+ endl)
  ∧ printCourseList (course :: courses)
    = String.concat EmptyString (printCourse <$> course :: courses).
Proof.
  split.
  - unfold printCourse. rewrite print_prerequisites_concat.
    destruct (prerequisites course); by repeat case_decide.
  - unfold printCourseList. rewrite decide_False by done.
    by rewrite printCourseList_loop, append_nil_l.
Qed.

Lemma commas_printCourse (course : Course) : (0 < commas (printCourse course))%nat.
Proof.
  unfold printCourse. rewrite !commas_append.
  change (commas ", ") with 1%nat. lia.
Qed.

Lemma commas_printCourseList (courses : list Course) :
  courses ≠ [] → (0 < commas (printCourseList courses))%nat.
Proof.
  destruct courses as [|c courses]; [done|]. intros _.
  unfold printCourseList. rewrite decide_False by done.
  rewrite printCourseList_loop, append_nil_l.
  assert (∀ l, l ≠ [] → Forall (λ s, 0 < commas s)%nat l →
               (0 < commas (String.concat EmptyString l))%nat) as Hl.
  { intros [|s [|s' l]] Hne Hall; [done|..]; inversion_clear Hall.
    - done.
    - change (String.concat EmptyString (s :: s' :: l))
        with (s +:+ EmptyString +:+ String.concat EmptyString (s' :: l)).
      rewrite commas_append. lia. }
  apply Hl; [done|].
  apply Forall_fmap, Forall_forall. intros c' _. apply commas_printCourse.
Qed.

(** ** The menu loop *)

Lemma start_consistent : Main.consistent Main.start.
Proof.
  exists []. split; [|done].
  split; [done|]. split; [apply SSorted_nil|done].
Qed.

Lemma turn_consistent (t : Main.Turn) (st st' : Main.state) (exit : bool) :
  Main.consistent st → Main.turn t st = Some (st', exit) → Main.consistent st'.
Proof.
  intros Hst Hturn. unfold Main.turn in Hturn.
  repeat case_decide; simplify_eq/=; try done.
  destruct (loadCoursesFile (Main.file t) (Main.world st))
    as [[[loaded w] msg]|] eqn:Hload; simplify_eq/=.
  destruct (loadCoursesFile_postcondition _ _ _ _ _ Hload)
    as (_ & _ & Hl & records & _ & Hs & Hh & Hg).
  by exists records.
Qed.

Lemma loop_consistent (turns : list Main.Turn) (st st' : Main.state) (exit : bool) :
  Main.consistent st → Main.loop turns st = Some (st', exit) → Main.consistent st'.
Proof.
  revert st. induction turns as [|t turns IH]; intros st Hst H; simplify_eq/=; [done|].
  destruct (Main.turn t st) as [[st1 e1]|] eqn:Ht; simplify_eq/=.
  pose proof (turn_consistent _ _ _ _ Hst Ht). destruct e1; simplify_eq; eauto.
Qed.

(** X24. In every state that [main] reaches, whatever was chosen and loaded
    before, the vector of [main] and the globals fit: there are records that
    the vector holds sorted stably and from which the table and the graph are
    built, and [dataLoaded] is set exactly when the vector is not empty. *)
Theorem main_consistent (turns : list Main.Turn) (st : Main.state) (exit : bool) :
  Main.main turns = Some (st, exit) → Main.consistent st.
Proof.
  unfold Main.main. intros H.
  destruct (Main.loop turns Main.start) as [[st1 e1]|] eqn:Hl; simplify_eq/=.
  pose proof (loop_consistent _ _ _ _ start_consistent Hl) as Hc.
  by destruct exit.
Qed.

Lemma main_consistent_witness :
  ∃ st,
    Main.main [Main.mkTurn 1 (Some example_file) EmptyString;
               Main.mkTurn 2 None EmptyString;
               Main.mkTurn 4 None EmptyString] = Some (st, true)
    ∧ Main.consistent st.
Proof.
  eexists. split; [vm_compute; reflexivity|].
  apply (main_consistent
           [Main.mkTurn 1 (Some example_file) EmptyString;
            Main.mkTurn 2 None EmptyString;
            Main.mkTurn 4 None EmptyString] _ true).
  vm_compute. reflexivity.
Defined.

Lemma consistent_not_loaded (st : Main.state) :
  Main.consistent st → dataLoaded (Main.world st) = false →
  Main.courses st = [] ∧ courseHashTable (Main.world st) = CourseHashTable.new.
Proof.
  intros (records & (Hp & _) & Hh & _ & Hd) Hf.
  assert (Main.courses st = []) as Hnil.
  { destruct (Main.courses st); [done|].
    destruct Hd as [_ Hd]. rewrite Hd in Hf; done. }
  split; [done|]. rewrite Hnil in Hp. symmetry in Hp.
  apply Permutation_nil_r in Hp. by rewrite Hh, Hp.
Qed.

(** X25. A search in a state of [main] in which no data is loaded, at the
    start or behind a load that failed, writes both that the courses are to
    be loaded first and that the course was not found. *)
Theorem search_before_load
    (turns : list Main.Turn) (st : Main.state) (exit : bool) (X : string) :
  Main.main turns = Some (st, exit) →
  dataLoaded (Main.world st) = false →
  searchCourse X (Main.world st)
  = ("What course do you want to know about? " +:+ endl)
    +:+ ("Please load courses first." +:+ endl)
    +:+ ("Course " +:+ X +:+ " not found." +:+ endl +:+ endl).
Proof.
  intros Hm Hf. apply main_consistent in Hm.
  destruct (consistent_not_loaded _ Hm Hf) as [_ Hh].
  unfold searchCourse. by rewrite Hf, Hh.
Qed.

Lemma search_before_load_witness :
  ∃ st,
    Main.main [Main.mkTurn 1 (Some example_file) EmptyString;
               Main.mkTurn 1 None EmptyString] = Some (st, false)
    ∧ searchCourse "CSCI100" (Main.world st)
      = ("What course do you want to know about? " +:+ endl)
        +:+ ("Please load courses first." +:+ endl)
        +:+ ("Course " +:+ "CSCI100" +:+ " not found." +:+ endl +:+ endl).
Proof.
  eexists. split; [vm_compute; reflexivity|].
  apply (search_before_load
           [Main.mkTurn 1 (Some example_file) EmptyString;
            Main.mkTurn 1 None EmptyString] _ false "CSCI100");
    vm_compute; reflexivity.
Defined.

(** X26. In every state that [main] reaches, printing the list writes that
    no courses are loaded exactly when [dataLoaded] is not set, that is
    exactly when a search writes that the courses are to be loaded first. *)
Theorem list_says_no_courses
    (turns : list Main.Turn) (st : Main.state) (exit : bool) :
  Main.main turns = Some (st, exit) →
  printCourseList (Main.courses st) = no_courses_loaded
  ↔ dataLoaded (Main.world st) = false.
Proof.
  intros Hm. apply main_consistent in Hm. split.
  - intros Hp. destruct (dataLoaded (Main.world st)) eqn:Hd; [|done].
    destruct Hm as (records & _ & _ & _ & Hl).
    apply Hl, commas_printCourseList in Hd. rewrite Hp in Hd.
    vm_compute in Hd. lia.
  - intros Hf. destruct (consistent_not_loaded _ Hm Hf) as [-> _]. done.
Qed.

Lemma list_says_no_courses_witness :
  ∃ st,
    Main.main [Main.mkTurn 1 (Some ["-1"%string]) EmptyString]
    = Some (st, false)
    ∧ (printCourseList (Main.courses st) = no_courses_loaded
       ↔ dataLoaded (Main.world st) = false).
Proof.
  eexists. split; [vm_compute; reflexivity|].
  apply (list_says_no_courses
           [Main.mkTurn 1 (Some ["-1"%string]) EmptyString] _ false).
  vm_compute. reflexivity.
Defined.

(** X27. A search in a state that [main] reaches writes a course of the
    vector of [main] whose identifier is the one asked for up to case, or,
    when the vector holds no such course, that the course was not found. *)
Theorem search_prints_listed_course
    (turns : list Main.Turn) (st : Main.state) (exit : bool) (X : string) :
  Main.main turns = Some (st, exit) →
  let said :=
    ("What course do you want to know about? " +:+ endl)
    +:+ (if dataLoaded (Main.world st) then EmptyString
         else "Please load courses first." +:+ endl) in
  (∃ c, c ∈ Main.courses st
        ∧ toLower (courseNumber c) = toLower X
        ∧ searchCourse X (Main.world st) = said +:+ printCourse c)
  ∨ ((∀ c, c ∈ Main.courses st → toLower (courseNumber c) ≠ toLower X)
     ∧ searchCourse X (Main.world st)
       = said +:+ "Course " +:+ X +:+ " not found." +:+ endl +:+ endl).
Proof.
  intros Hm said. apply main_consistent in Hm.
  destruct Hm as (records & (Hp & _) & Hh & _ & _).
  unfold searchCourse. fold said. rewrite Hh, find_store_of.
  destruct (last (filter (λ c, toLower (courseNumber c) = toLower X) records))
    as [c|] eqn:Hlast.
  - left. exists c.
    apply last_Some_elem_of, list_elem_of_filter in Hlast as [Hc Hin].
    rewrite Hp. by rewrite append_assoc.
  - right. split; [|by rewrite append_assoc].
    intros c Hin Hc. rewrite Hp in Hin.
    apply last_None in Hlast.
    assert (c ∈ filter (λ c, toLower (courseNumber c) = toLower X) records) as Hf
      by (by apply list_elem_of_filter).
    rewrite Hlast in Hf. by apply elem_of_nil in Hf.
Qed.

Lemma search_prints_listed_course_witness :
  ∃ st,
    Main.main [Main.mkTurn 1 (Some example_file) EmptyString]
    = Some (st, false)
    ∧ ((∃ c, c ∈ Main.courses st
             ∧ toLower (courseNumber c) = toLower "csci100"
             ∧ searchCourse "csci100" (Main.world st)
               = ("What course do you want to know about? " +:+ endl)
                 +:+ (if dataLoaded (Main.world st) then EmptyString
                      else "Please load courses first." +:+ endl)
                 +:+ printCourse c)
       ∨ ((∀ c, c ∈ Main.courses st
                → toLower (courseNumber c) ≠ toLower "csci100")
          ∧ searchCourse "csci100" (Main.world st)
            = ("What course do you want to know about? " +:+ endl)
              +:+ (if dataLoaded (Main.world st) then EmptyString
                   else "Please load courses first." +:+ endl)
              +:+ "Course " +:+ "csci100" +:+ " not found." +:+ endl +:+ endl)).
Proof.
  eexists. split; [vm_compute; reflexivity|].
  apply (search_prints_listed_course
           [Main.mkTurn 1 (Some example_file) EmptyString] _ false "csci100").
  vm_compute. reflexivity.
Defined.

Lemma loop_after_exit (turns rest : list Main.Turn) (t : Main.Turn) (st : Main.state) :
  Main.input t = 4 →
  Main.loop (turns ++ t :: rest) st = Main.loop (turns ++ [t]) st.
Proof.
  intros Ht. revert st. induction turns as [|t' turns IH]; intros st; simpl.
  - unfold Main.turn. by rewrite decide_True by done.
  - destruct (Main.turn t' st) as [[st' [|]]|]; simpl; [done| |done]. apply IH.
Qed.

(** X28. What is typed behind the choice [4] is not read: [main] ends there,
    with the same vector, globals and text whatever follows. *)
Theorem main_after_exit (turns rest : list Main.Turn) (t : Main.Turn) :
  Main.input t = 4 →
  Main.main (turns ++ t :: rest) = Main.main (turns ++ [t]).
Proof. intros Ht. unfold Main.main. by rewrite loop_after_exit. Qed.

Lemma main_after_exit_witness :
  Main.main ([Main.mkTurn 2 None EmptyString]
             ++ Main.mkTurn 4 None EmptyString
                :: [Main.mkTurn 1 (Some example_file) EmptyString])
  = Main.main ([Main.mkTurn 2 None EmptyString]
               ++ [Main.mkTurn 4 None EmptyString]).
Proof.
  apply (main_after_exit [Main.mkTurn 2 None EmptyString]
           [Main.mkTurn 1 (Some example_file) EmptyString]
           (Main.mkTurn 4 None EmptyString)).
  reflexivity.
Defined.
